(** * Verification of [scripts/sync_productions.mjs]

    The script merges machine-discovered candidate productions into the
    curated dataset [docs/data/productions.json].  This development embeds
    the script in Rocq: JSON data as an inductive type, the JavaScript
    operations the script relies on (truthiness, property reads, object
    spread, [Map] keys, [JSON.stringify], [Number.parseInt]) as functions on
    it, and [main] as a program in a state-and-error monad over a file
    system and a console. *)

From Stdlib Require Import ZArith Ascii String List.
From Stdlib Require Import Decimal DecimalString DecimalPos DecimalZ.
From stdpp Require Import gmap strings list fin_maps.

Set Default Proof Using "Type".

(** ** JSON data, as [JSON.parse] produces it *)

Module Json.

Unset Elimination Schemes.

(** A number is kept as an integer: the script never computes with the
    numbers of a record, it only tests them for truthiness, uses them as
    [Map] keys and serializes them.  The records covered are those whose
    numbers are integers; the text of a number is the script's for the
    safe integers (see [NumberToString]).  A string is a sequence of code
    units below 256.  An object is its list of own properties, in property
    order. *)
Inductive json : Type :=
| JNull
| JBool (b : bool)
| JNum (n : Z)
| JStr (s : string)
| JArr (items : list json)
| JObj (props : list (string * json)).

Set Elimination Schemes.

(** Induction over nested arrays and objects. *)
Definition json_ind (P : json → Prop)
    (HNull : P JNull)
    (HBool : ∀ b, P (JBool b))
    (HNum : ∀ n, P (JNum n))
    (HStr : ∀ s, P (JStr s))
    (HArr : ∀ items, Forall P items → P (JArr items))
    (HObj : ∀ props, Forall (λ kv, P kv.2) props → P (JObj props)) :
  ∀ v, P v :=
  fix go (v : json) : P v :=
    match v with
    | JNull => HNull
    | JBool b => HBool b
    | JNum n => HNum n
    | JStr s => HStr s
    | JArr items =>
        HArr items
          ((fix all (l : list json) : Forall P l :=
              match l with
              | [] => @List.Forall_nil _ P
              | x :: l' => @List.Forall_cons _ P x l' (go x) (all l')
              end) items)
    | JObj props =>
        HObj props
          ((fix all (l : list (string * json)) : Forall (λ kv, P kv.2) l :=
              match l with
              | [] => @List.Forall_nil _ _
              | kv :: l' => @List.Forall_cons _ (λ kv, P kv.2) kv l' (go kv.2) (all l')
              end) props)
    end.

(** [undefined] is not a JSON value: a property read yields [option json],
    [None] standing for [undefined]. *)
Definition truthy (v : json) : bool :=
  match v with
  | JNull => false
  | JBool b => b
  | JNum n => negb (n =? 0)%Z
  | JStr s => negb (String.eqb s EmptyString)
  | JArr _ | JObj _ => true
  end.

Definition truthy_opt (o : option json) : bool :=
  match o with
  | Some v => truthy v
  | None => false
  end.

(** [typeof v === "object"]: objects, arrays and [null]. *)
Definition typeof_object (v : json) : bool :=
  match v with
  | JNull | JArr _ | JObj _ => true
  | _ => false
  end.

Definition is_array (v : json) : bool :=
  match v with
  | JArr _ => true
  | _ => false
  end.

(** The property named [name] of a property list.  An object has one
    property of a name; in a list that repeats a name the last one counts,
    as in JSON text. *)
Fixpoint lookup_prop (name : string) (props : list (string * json)) : option json :=
  match props with
  | [] => None
  | (k, v) :: rest =>
      match lookup_prop name rest with
      | Some w => Some w
      | None => if String.eqb k name then Some v else None
      end
  end.

Definition has_prop (name : string) (props : list (string * json)) : bool :=
  match lookup_prop name props with
  | Some _ => true
  | None => false
  end.

(** Decimal rendering of a natural number and of an integer.  For an
    integer up to [2^53] in magnitude this is the text [JSON.stringify]
    and a template literal give; a larger number is printed by the script
    with its shortest digits, and in exponent form from [1e21] on, which
    this rendering does not follow. *)
Definition nat_to_string (n : nat) : string :=
  NilEmpty.string_of_uint (Nat.to_uint n).

Definition NumberToString (n : Z) : string :=
  match Z.to_int n with
  | Decimal.Pos d => NilEmpty.string_of_uint d
  | Decimal.Neg d => String "-" (NilEmpty.string_of_uint d)
  end.

(** *** Property order

    An object lists the properties whose name is an array index (a
    canonical decimal below 2^32 - 1) first, in ascending order, and the
    others after them in creation order. *)
Definition digit_value (c : ascii) : option N :=
  let code := N_of_ascii c in
  if (48 <=? code)%N && (code <=? 57)%N then Some (code - 48)%N else None.

Fixpoint digits_value (s : string) (acc : N) : option N :=
  match s with
  | EmptyString => Some acc
  | String c s' =>
      match digit_value c with
      | Some d => digits_value s' (acc * 10 + d)%N
      | None => None
      end
  end.

Definition array_index (name : string) : option N :=
  match name with
  | EmptyString => None
  | String "0" EmptyString => Some 0%N
  | String "0" _ => None
  | _ =>
      match digits_value name 0 with
      | Some n => if (n <? 2 ^ 32 - 1)%N then Some n else None
      | None => None
      end
  end.

(** Overwrite the property named [name], keeping its place. *)
Fixpoint replace_prop (name : string) (v : json) (props : list (string * json))
    : list (string * json) :=
  match props with
  | [] => []
  | (k, w) :: rest =>
      if has_prop name rest then (k, w) :: replace_prop name v rest
      else if String.eqb k name then (k, v) :: rest
      else (k, w) :: rest
  end.

(** Place a new array-index property among the index properties. *)
Fixpoint place_index (n : N) (name : string) (v : json) (props : list (string * json))
    : list (string * json) :=
  match props with
  | [] => [(name, v)]
  | (k, w) :: rest =>
      match array_index k with
      | Some m =>
          if (n <? m)%N then (name, v) :: props
          else (k, w) :: place_index n name v rest
      | None => (name, v) :: props
      end
  end.

(** [CreateDataProperty]: what [obj[name] = v] does to a plain object, and
    what each property of a spread or of an object literal does. *)
Definition CreateDataProperty (props : list (string * json)) (name : string) (v : json)
    : list (string * json) :=
  if has_prop name props then replace_prop name v props
  else
    match array_index name with
    | Some n => place_index n name v props
    | None => props ++ [(name, v)]
    end.

(** Own enumerable properties of a value, as a spread copies them. *)
Definition own_props (v : json) : list (string * json) :=
  match v with
  | JObj props => props
  | JArr items => imap (λ i x, (nat_to_string i, x)) items
  | JStr s =>
      imap (λ i c, (nat_to_string i, JStr (String c EmptyString)))
        (list_ascii_of_string s)
  | _ => []
  end.

(** [{...target, ...source}]: copy the properties of [source], in order,
    onto [target]. *)
Definition CopyDataProperties (target source : list (string * json))
    : list (string * json) :=
  foldl (λ acc kv, CreateDataProperty acc kv.1 kv.2) target source.

(** *** [JSON.stringify]

    [SerializeJSONProperty gap indent v] follows the algorithm of the
    language standard; [gap] is empty for [JSON.stringify(v)] and two
    spaces for [JSON.stringify(v, null, 2)].  A character is one code
    unit below 256. *)
Definition hex_digit (n : nat) : ascii :=
  nth n (list_ascii_of_string "0123456789abcdef") "0"%char.

Definition QuoteJSONChar (c : ascii) : list ascii :=
  match c with
  | "008" => ["\"; "b"]
  | "009" => ["\"; "t"]
  | "010" => ["\"; "n"]
  | "012" => ["\"; "f"]
  | "013" => ["\"; "r"]
  | "034" => ["\"; "034"]
  | "\" => ["\"; "\"]
  | _ =>
      let n := nat_of_ascii c in
      if (n <? 32)%nat
      then ["\"; "u"; "0"; "0"; hex_digit (n / 16); hex_digit (n mod 16)]
      else [c]
  end%char.

Definition QuoteJSONString (s : string) : list ascii :=
  ("034"%char :: flat_map QuoteJSONChar (list_ascii_of_string s)) ++ ["034"%char].

Fixpoint join (sep : list ascii) (parts : list (list ascii)) : list ascii :=
  match parts with
  | [] => []
  | [p] => p
  | p :: rest => p ++ sep ++ join sep rest
  end.

Definition newline : ascii := "010"%char.

(** Brackets around the serialized members of an array or object. *)
Definition wrap (gap stepback indent : list ascii) (open close : ascii)
    (partial : list (list ascii)) : list ascii :=
  match partial with
  | [] => [open; close]
  | _ =>
      match gap with
      | [] => open :: join [","%char] partial ++ [close]
      | _ =>
          open :: newline :: indent
            ++ join (","%char :: newline :: indent) partial
            ++ newline :: stepback ++ [close]
      end
  end.

Definition colon (gap : list ascii) : list ascii :=
  match gap with
  | [] => [":"%char]
  | _ => [":"%char; " "%char]
  end.

Fixpoint SerializeJSONProperty (gap indent : list ascii) (v : json) : list ascii :=
  match v with
  | JNull => list_ascii_of_string "null"
  | JBool true => list_ascii_of_string "true"
  | JBool false => list_ascii_of_string "false"
  | JNum n => list_ascii_of_string (NumberToString n)
  | JStr s => QuoteJSONString s
  | JArr items =>
      wrap gap indent (indent ++ gap) "["%char "]"%char
        (map (SerializeJSONProperty gap (indent ++ gap)) items)
  | JObj props =>
      wrap gap indent (indent ++ gap) "{"%char "}"%char
        (map (λ kv, QuoteJSONString kv.1 ++ colon gap
                      ++ SerializeJSONProperty gap (indent ++ gap) kv.2) props)
  end.

Definition JSON_stringify (v : json) : string :=
  string_of_list_ascii (SerializeJSONProperty [] [] v).

(** [JSON.stringify(v, null, 2)] *)
Definition JSON_stringify_indent2 (v : json) : string :=
  string_of_list_ascii (SerializeJSONProperty [" "%char; " "%char] [] v).

End Json.

Import Json.


(** ** Errors *)

Inductive error : Type :=
| TypeError                 (* a property read on [null] or [undefined], a call of a non-function *)
| SyntaxError               (* [JSON.parse] on malformed text *)
| ENOENT (path : string)    (* [fs.readFile] on a missing file *)
| Error (message : string). (* [throw new Error(message)] *)

Inductive result (A : Type) : Type :=
| Ok (a : A)
| Err (e : error).

Arguments Ok {A} a.
Arguments Err {A} e.

Definition bind {A B : Type} (r : result A) (f : A → result B) : result B :=
  match r with
  | Ok a => f a
  | Err e => Err e
  end.

Notation "'do' x <- e ; k" := (bind e (λ x, k))
  (at level 10, x name, e at level 100, k at level 200).

(** ** The operations of the language the script uses *)

(** [v.name] for a property name that no built-in prototype defines ([id]
    and [themes] here): an own property of an object, [undefined] on any
    other value, a [TypeError] on [null]. *)
Definition get_prop (v : json) (name : string) : result (option json) :=
  match v with
  | JNull => Err TypeError
  | JObj props => Ok (lookup_prop name props)
  | _ => Ok None
  end.

(** [array[index]]; reading past the end yields [undefined], and the
    property read that follows on it throws. *)
Definition get_element (items : list json) (index : nat) : result json :=
  match items !! index with
  | Some v => Ok v
  | None => Err TypeError
  end.

(** [v.length] *)
Definition get_length (v : json) : result (option json) :=
  match v with
  | JNull => Err TypeError
  | JArr items => Ok (Some (JNum (Z.of_nat (length items))))
  | JStr s => Ok (Some (JNum (Z.of_nat (String.length s))))
  | JObj props => Ok (lookup_prop "length" props)
  | _ => Ok None
  end.

(** [v[index]] on a value that is not [null]. *)
Definition get_index (v : json) (index : nat) : option json :=
  match v with
  | JArr items => items !! index
  | JStr s => (λ c, JStr (String c EmptyString)) <$> String.get index s
  | JObj props => lookup_prop (nat_to_string index) props
  | _ => None
  end.

(** [a === b].  Arrays and objects are compared by identity, which the
    values of this model do not carry: [same] tells whether the two operands
    were read from one and the same object (then an array or an object is
    identical to itself) or from the results of two different [JSON.parse]
    calls (then they never are). *)
Definition strict_equals (same : bool) (a b : json) : bool :=
  match a, b with
  | JNull, JNull => true
  | JBool x, JBool y => Bool.eqb x y
  | JNum x, JNum y => (x =? y)%Z
  | JStr x, JStr y => String.eqb x y
  | JArr _, JArr _ => same
  | JObj _, JObj _ => same
  | _, _ => false
  end.

Definition strict_equals_opt (same : bool) (a b : option json) : bool :=
  match a, b with
  | None, None => true
  | Some x, Some y => strict_equals same x y
  | _, _ => false
  end.

(** [v || []] *)
Definition or_empty (o : option json) : json :=
  match o with
  | Some v => if truthy v then v else JArr []
  | None => JArr []
  end.

(** Keys of a [Map] (SameValueZero).  A primitive is its own key.  An array
    or an object is a key by identity: an entry stored under one can never
    be found with a value from another [JSON.parse], so it has no key. *)
Inductive key : Type :=
| KNull
| KBool (b : bool)
| KNum (n : Z)
| KStr (s : string).

#[global] Instance key_eq_dec : EqDecision key.
Proof. solve_decision. Defined.

#[global] Instance key_countable : Countable key.
Proof.
  refine (inj_countable'
    (λ k, match k with
          | KNull => inl ()
          | KBool b => inr (inl b)
          | KNum n => inr (inr (inl n))
          | KStr s => inr (inr (inr s))
          end)
    (λ x, match x with
          | inl () => KNull
          | inr (inl b) => KBool b
          | inr (inr (inl n)) => KNum n
          | inr (inr (inr s)) => KStr s
          end) _).
  by intros [].
Defined.

Definition map_key (id : json) : option key :=
  match id with
  | JNull => Some KNull
  | JBool b => Some (KBool b)
  | JNum n => Some (KNum n)
  | JStr s => Some (KStr s)
  | JArr _ | JObj _ => None
  end.

Definition Map_set (m : gmap key nat) (id : json) (index : nat) : gmap key nat :=
  match map_key id with
  | Some k => <[k := index]> m
  | None => m
  end.

Definition Map_get (m : gmap key nat) (id : option json) : option nat :=
  match id with
  | Some v =>
      match map_key v with
      | Some k => m !! k
      | None => None
      end
  | None => None
  end.

(** The Number for the integer [n]: [n] itself up to [2^53] in magnitude,
    and beyond that the nearest value with a mantissa of 53 bits, the even
    one of two equally near.  An integer that rounds to [2^1024] or lies
    beyond has no finite Number: [2^1024] stands for [Infinity] and
    [-2^1024] for [-Infinity]. *)
Definition to_double (n : Z) : Z :=
  let a := Z.abs n in
  if (a <=? 2 ^ 53)%Z then n
  else
    let e := (Z.log2 a - 52)%Z in
    let q := Z.shiftr a e in
    let r := Z.land a (Z.ones e) in
    let half := Z.shiftl 1 (e - 1) in
    let q' :=
      if (r <? half)%Z then q
      else if (half <? r)%Z then (q + 1)%Z
      else if Z.even q then q else (q + 1)%Z in
    (Z.sgn n * Z.min (Z.shiftl q' e) (2 ^ 1024))%Z.

#[global] Arguments to_double : simpl never.

(** [Number.parseInt(value, 10)]: leading white space, an optional sign,
    then the longest run of decimal digits; what follows is ignored, and
    [NaN] ([None]) results when there is no digit.  The result is a Number:
    the integer read, rounded by [to_double]. *)
Definition is_white_space (c : ascii) : bool :=
  match c with
  | "009" | "010" | "011" | "012" | "013" | " " | "160" => true
  | _ => false
  end%char.

Fixpoint trim_start (s : string) : string :=
  match s with
  | String c rest => if is_white_space c then trim_start rest else s
  | EmptyString => s
  end.

Fixpoint leading_digits (s : string) : list N :=
  match s with
  | String c rest =>
      match digit_value c with
      | Some d => d :: leading_digits rest
      | None => []
      end
  | EmptyString => []
  end.

Definition parseInt (value : string) : option Z :=
  let s := trim_start value in
  let '(sign, s) :=
    match s with
    | String "-" rest => ((-1)%Z, rest)
    | String "+" rest => (1%Z, rest)
    | _ => (1%Z, s)
    end in
  match leading_digits s with
  | [] => None
  | ds => Some (to_double (sign * foldl (λ acc d, acc * 10 + Z.of_N d) 0 ds))%Z
  end.

(** [s.startsWith("--")] and [s.slice(2)] *)
Definition startsWith (s prefix : string) : bool := String.prefix prefix s.

Definition slice2 (s : string) : string :=
  String.substring 2 (String.length s - 2) s.

(** ** The script *)

Definition DEFAULT_CANDIDATES_PATH : string := "data/production_candidates.json".
Definition DEFAULT_OUTPUT_PATH : string := "docs/data/productions.json".

(** The loop of [parseArgs]: [args] is the [Map] of valued options, [flags]
    the [Set] of bare ones.  An option followed by a value skips it. *)
Fixpoint parseArgs_loop (argv : list string) (args : gmap string string)
    (flags : gset string) : gmap string string * gset string :=
  match argv with
  | [] => (args, flags)
  | arg :: rest =>
      if startsWith arg "--" then
        let name := slice2 arg in
        match rest with
        | next :: rest' =>
            if String.eqb next EmptyString || startsWith next "--"
            then parseArgs_loop rest args ({[name]} ∪ flags)
            else parseArgs_loop rest' (<[name := next]> args) flags
        | [] => (args, {[name]} ∪ flags)
        end
      else parseArgs_loop rest args flags
  end.

Definition parseArgs (argv : list string) : gmap string string * gset string :=
  parseArgs_loop argv ∅ ∅.

Definition invalid_limit (value : string) : error :=
  Error ("Invalid --limit value: " +:+ value).

Definition parseLimit (value : option string) : result (option Z) :=
  match value with
  | None => Ok None
  | Some value =>
      match parseInt value with
      | None => Err (invalid_limit value)
      | Some parsed =>
          if (parsed <=? 0)%Z then Err (invalid_limit value) else Ok (Some parsed)
      end
  end.

(** [areArraysEqual(left, right)]; both call sites pass values, so the
    default parameters never apply.  [left.every] exists on arrays only. *)
Definition areArraysEqual (same : bool) (left right : json) : result bool :=
  do left_length <- get_length left;
  do right_length <- get_length right;
  if negb (strict_equals_opt same left_length right_length) then Ok false
  else
    match left with
    | JArr items =>
        Ok (forallb id
              (imap (λ index value,
                       strict_equals_opt same (Some value) (get_index right index))
                 items))
    | _ => Err TypeError
    end.

(** [JSON.parse(JSON.stringify(record))] is a deep copy of [record]; values
    carry no identity here, so the copy of a record is the record. *)
Definition normalizeRecord (record : json) : json := record.

(** The part of [main] that works on the two arrays in memory. *)
Record state : Type := State {
  productions : list json;
  createdCount : nat;
  updatedCount : nat;
  themesUnchangedCount : nat;
  themeMismatchCount : nat;
}.

(** The callback of [productions.forEach] (lines 76-80). *)
Definition indexProduction (productionIndex : gmap key nat) (production : json)
    (index : nat) : result (gmap key nat) :=
  do id <- get_prop production "id";
  match id with
  | Some id => if truthy id then Ok (Map_set productionIndex id index) else Ok productionIndex
  | None => Ok productionIndex
  end.

Fixpoint buildIndex_from (index : nat) (productions : list json)
    (productionIndex : gmap key nat) : result (gmap key nat) :=
  match productions with
  | [] => Ok productionIndex
  | production :: rest =>
      do productionIndex <- indexProduction productionIndex production index;
      buildIndex_from (S index) rest productionIndex
  end.

Definition buildIndex (productions : list json) : result (gmap key nat) :=
  buildIndex_from 0 productions ∅.

(** [{ ...existing, ...candidate, themes: existingThemes }] *)
Definition mergeRecord (existing candidate existingThemes : json) : json :=
  JObj (CreateDataProperty
          (CopyDataProperties (CopyDataProperties [] (own_props existing))
             (own_props candidate))
          "themes" existingThemes).

Definition hasChanges (existing merged : json) : bool :=
  negb (String.eqb (JSON_stringify (normalizeRecord existing))
                   (JSON_stringify (normalizeRecord merged))).

(** The callback of [limitedCandidates.forEach] (lines 87-130). *)
Definition processCandidate (productionIndex : gmap key nat) (st : state)
    (candidate : json) : result state :=
  if negb (truthy candidate) || negb (typeof_object candidate) then Ok st
  else
    do id <- get_prop candidate "id";
    if negb (truthy_opt id) then Ok st
    else
      match Map_get productionIndex id with
      | None =>
          Ok (State (productions st ++ [candidate]) (createdCount st + 1)
                (updatedCount st) (themesUnchangedCount st) (themeMismatchCount st))
      | Some existingIndex =>
          do existing <- get_element (productions st) existingIndex;
          do existing_themes <- get_prop existing "themes";
          let existingThemes := or_empty existing_themes in
          do candidate_themes <- get_prop candidate "themes";
          let candidateThemes := or_empty candidate_themes in
          do themes_equal <- areArraysEqual false existingThemes candidateThemes;
          let themeMismatchCount' :=
            if themes_equal then themeMismatchCount st else themeMismatchCount st + 1 in
          let merged := mergeRecord existing candidate existingThemes in
          do merged_themes <- get_prop merged "themes";
          do themes_kept <- areArraysEqual true existingThemes (or_empty merged_themes);
          let themesUnchangedCount' :=
            if themes_kept then themesUnchangedCount st + 1 else themesUnchangedCount st in
          if hasChanges existing merged
          then Ok (State (<[existingIndex := merged]> (productions st)) (createdCount st)
                     (updatedCount st + 1) themesUnchangedCount' themeMismatchCount')
          else Ok (State (productions st) (createdCount st)
                     (updatedCount st) themesUnchangedCount' themeMismatchCount')
      end.

Fixpoint forEach (productionIndex : gmap key nat) (candidates : list json) (st : state)
    : result state :=
  match candidates with
  | [] => Ok st
  | candidate :: rest =>
      do st <- processCandidate productionIndex st candidate;
      forEach productionIndex rest st
  end.

(** Lines 75-130 of [main]: the index of the productions, then the loop
    over the candidates. *)
Definition merge (limitedCandidates productions : list json) : result state :=
  do productionIndex <- buildIndex productions;
  forEach productionIndex limitedCandidates (State productions 0 0 0 0).

(** [candidates.slice(0, limit)]; a negative end counts from the end. *)
Definition slice_to (limit : Z) (candidates : list json) : list json :=
  if (limit <? 0)%Z
  then take (length candidates - Z.to_nat (- limit)) candidates
  else take (Z.to_nat limit) candidates.

(** [limit ? candidates.slice(0, limit) : candidates] *)
Definition limitCandidates (limit : option Z) (candidates : list json) : list json :=
  match limit with
  | Some n => if (n =? 0)%Z then candidates else slice_to n candidates
  | None => candidates
  end.

(** *** Files and console

    A run reads and writes files and prints lines.  [IO] threads the world
    through the run; an exception leaves the world as it was when thrown.
    The files of a world are the regular files that the process can read,
    and a path outside them is a missing file; the process can write to
    every path.  What else a file system can refuse (a directory in place
    of a file, missing permissions, a full disk) is not part of a world.
    The limit in [CandidatesProcessed] is the Number that [parseLimit]
    returned. *)
Inductive line : Type :=
| CandidatesFound (total : nat)
| CandidatesProcessed (limit : Z) (processed : nat)
| ProductionsCreated (count : nat)
| ProductionsUpdated (count : nat)
| ThemesUnchanged (count : nat)
| ThemeMismatches (count : nat)
| DryRunEnabled
| ErrorMessage (e : error).

Record world : Type := World {
  files : gmap string string;
  console : list line;
}.

Definition IO (A : Type) : Type := world → result A * world.

Definition io_ret {A : Type} (a : A) : IO A := λ w, (Ok a, w).

Definition io_bind {A B : Type} (m : IO A) (f : A → IO B) : IO B :=
  λ w, match m w with
       | (Ok a, w') => f a w'
       | (Err e, w') => (Err e, w')
       end.

Notation "'run' x <- e ; k" := (io_bind e (λ x, k))
  (at level 10, x name, e at level 100, k at level 200).
Notation "'exec' e ; k" := (io_bind e (λ _, k))
  (at level 10, e at level 100, k at level 200).

Definition throw {A : Type} (e : error) : IO A := λ w, (Err e, w).

Definition lift {A : Type} (r : result A) : IO A := λ w, (r, w).

Definition readFile (filePath : string) : IO string :=
  λ w, match files w !! filePath with
       | Some raw => (Ok raw, w)
       | None => (Err (ENOENT filePath), w)
       end.

Definition writeFile (filePath data : string) : IO unit :=
  λ w, (Ok (), World (<[filePath := data]> (files w)) (console w)).

Definition console_log (l : line) : IO unit :=
  λ w, (Ok (), World (files w) (console w ++ [l])).

Definition when (b : bool) (m : IO unit) : IO unit :=
  if b then m else io_ret ().

(** What the script takes from its host: the parser of JSON text and the
    resolution of a path against the working directory. *)
Class Host : Type := {
  JSON_parse : string → option json;
  path_resolve : string → string;
}.

Section Script.
Context `{Host}.

Definition readJson (filePath : string) : IO json :=
  run raw <- readFile filePath;
  match JSON_parse raw with
  | Some v => io_ret v
  | None => throw SyntaxError
  end.

(** [args.get(name) || fallback] *)
Definition get_or (args : gmap string string) (name fallback : string) : string :=
  match args !! name with
  | Some v => if String.eqb v EmptyString then fallback else v
  | None => fallback
  end.

(** Lines 132-154 of [main]: the report, then the write unless the run
    is a dry run. *)
Definition report_and_write (dryRun : bool) (resolvedOutputPath : string)
    (limit : option Z) (totalCandidates : nat) (limitedCandidates : list json)
    (st : state) : IO unit :=
  exec console_log (CandidatesFound totalCandidates);
  exec match limit with
       | Some n =>
           when (negb (n =? 0)%Z)
             (console_log (CandidatesProcessed n (length limitedCandidates)))
       | None => io_ret ()
       end;
  exec console_log (ProductionsCreated (createdCount st));
  exec console_log (ProductionsUpdated (updatedCount st));
  exec console_log (ThemesUnchanged (themesUnchangedCount st));
  exec when (0 <? themeMismatchCount st)
         (console_log (ThemeMismatches (themeMismatchCount st)));
  if dryRun then console_log DryRunEnabled
  else
    writeFile resolvedOutputPath
      (JSON_stringify_indent2 (JArr (productions st)) +:+ String newline EmptyString).

(** [main] from line 54 on, given what [parseArgs] returned. *)
Definition main_body (args : gmap string string) (flags : gset string) : IO unit :=
  let candidatesPath := get_or args "candidates" DEFAULT_CANDIDATES_PATH in
  let outputPath := get_or args "output" DEFAULT_OUTPUT_PATH in
  run limit <- lift (parseLimit (args !! "limit"));
  let dryRun := bool_decide ("dry-run" ∈ flags) in
  let resolvedCandidatesPath := path_resolve candidatesPath in
  let resolvedOutputPath := path_resolve outputPath in
  run candidates <- readJson resolvedCandidatesPath;
  run productions <- readJson resolvedOutputPath;
  match candidates, productions with
  | JArr candidateItems, JArr productionItems =>
      let totalCandidates := length candidateItems in
      let limitedCandidates := limitCandidates limit candidateItems in
      run st <- lift (merge limitedCandidates productionItems);
      report_and_write dryRun resolvedOutputPath limit totalCandidates
        limitedCandidates st
  | JArr _, _ => throw (Error "Productions file must contain an array.")
  | _, _ => throw (Error "Candidates file must contain an array.")
  end.

Definition main (argv : list string) : IO unit :=
  let '(args, flags) := parseArgs argv in
  main_body args flags.

(** [main().catch(...)]: the exit code and the world the run leaves. *)
Definition run_main (argv : list string) (w : world) : Z * world :=
  match main argv w with
  | (Ok _, w') => (0%Z, w')
  | (Err e, w') => (1%Z, World (files w') (console w' ++ [ErrorMessage e]))
  end.

End Script.

(** ** Notions used to state the properties *)

(** The characters of a decimal numeral. *)
Definition uint_chars (d : Decimal.uint) : list ascii :=
  list_ascii_of_string (NilEmpty.string_of_uint d).

(** What may follow a serialized value: not a digit. *)
Definition delimited (r : list ascii) : Prop :=
  match r with
  | [] => True
  | c :: _ => digit_value c = None
  end.

(** Which kind of value a serialization that starts with [c] belongs to. *)
Definition value_kind (v : json) : nat :=
  match v with
  | JNull => 0 | JBool _ => 1 | JNum _ => 2 | JStr _ => 3 | JArr _ => 4 | JObj _ => 5
  end.

Definition char_kind (c : ascii) : option nat :=
  match c with
  | "n" => Some 0
  | "t" | "f" => Some 1
  | "-" => Some 2
  | "034" => Some 3
  | "[" => Some 4
  | "{" => Some 5
  | _ => match digit_value c with Some _ => Some 2 | None => None end
  end%char.

(** The [id] with which a candidate passes the guards of the loop (lines
    88-95): the candidate is an object and its [id] is truthy. *)
Definition candidate_id (candidate : json) : option json :=
  match candidate with
  | JObj props =>
      match lookup_prop "id" props with
      | Some id => if truthy id then Some id else None
      | None => None
      end
  | _ => None
  end.

(** The key under which [productions.forEach] records a production. *)
Definition record_key (production : json) : option key :=
  candidate_id production ≫= map_key.

(** The candidate is appended as a new production. *)
Definition creates (productionIndex : gmap key nat) (candidate : json) : bool :=
  match candidate_id candidate with
  | Some id =>
      match Map_get productionIndex (Some id) with
      | Some _ => false
      | None => true
      end
  | None => false
  end.

(** The key of the candidate in the index, when its [id] is a primitive. *)
Definition candidate_key (candidate : json) : option key :=
  candidate_id candidate ≫= map_key.

(** Property names in the order an object keeps them: array indices first,
    ascending, then the other names. *)
Fixpoint index_ordered (names : list string) : Prop :=
  match names with
  | [] => True
  | name :: rest =>
      match array_index name with
      | Some n =>
          Forall (λ name', ∀ m, array_index name' = Some m → (n ≤ m)%N) rest
      | None => Forall (λ name', array_index name' = None) rest
      end
      ∧ index_ordered rest
  end.

(** A property list that an object can have. *)
Definition js_object (props : list (string * json)) : Prop :=
  NoDup props.*1 ∧ index_ordered props.*1.

(** A record as the dataset wants it: an object whose [themes] are an
    array. *)
Definition complete_record (record : json) : Prop :=
  ∃ props items,
    record = JObj props ∧ js_object props
    ∧ lookup_prop "themes" props = Some (JArr items).

(** The candidate is merged into a production. *)
Definition merges (productionIndex : gmap key nat) (candidate : json) : bool :=
  match candidate_id candidate with
  | Some id =>
      match Map_get productionIndex (Some id) with
      | Some _ => true
      | None => false
      end
  | None => false
  end.

(** The candidate is merged into the production at [index]. *)
Definition matches (productionIndex : gmap key nat) (candidate : json) (index : nat)
    : Prop :=
  ∃ id, candidate_id candidate = Some id
        ∧ Map_get productionIndex (Some id) = Some index.

(** The last position, counted from [start], of a production with key [k]. *)
Fixpoint last_index (k : key) (productions : list json) (start : nat) : option nat :=
  match productions with
  | [] => None
  | production :: rest =>
      match last_index k rest (S start) with
      | Some i => Some i
      | None => if decide (record_key production = Some k) then Some start else None
      end
  end.

(** The themes the merge keeps for a production: [existing.themes || []]. *)
Definition kept_themes (existing : json) : json :=
  match existing with
  | JObj props => or_empty (lookup_prop "themes" props)
  | _ => JArr []
  end.

(** The [themes] of a record are [t]. *)
Definition has_themes (record t : json) : Prop :=
  ∃ props, record = JObj props ∧ lookup_prop "themes" props = Some t.

(** The same entry of the dataset: the production itself, or a record
    stored under the same [id]. *)
Definition same_slot (production entry : json) : Prop :=
  entry = production
  ∨ ∃ k, record_key production = Some k ∧ record_key entry = Some k.

(** The candidate passes the guards and no production has its [id]. *)
Definition is_new (productions : list json) (candidate : json) : bool :=
  match candidate_id candidate with
  | Some id =>
      match map_key id with
      | Some k => bool_decide (Forall (λ e, record_key e ≠ Some k) productions)
      | None => true
      end
  | None => false
  end.

(** The candidate passes the guards and a production has its [id]. *)
Definition joins (productions : list json) (candidate : json) : bool :=
  match candidate_id candidate with
  | Some _ => negb (is_new productions candidate)
  | None => false
  end.

(** The paths a run reads, and the array a file holds, if it holds one. *)
Definition candidates_path `{Host} (args : gmap string string) : string :=
  path_resolve (get_or args "candidates" DEFAULT_CANDIDATES_PATH).

Definition output_path `{Host} (args : gmap string string) : string :=
  path_resolve (get_or args "output" DEFAULT_OUTPUT_PATH).

Definition read_array `{Host} (w : world) (filePath : string) : option (list json) :=
  match files w !! filePath with
  | Some raw =>
      match JSON_parse raw with
      | Some (JArr items) => Some items
      | _ => None
      end
  | None => None
  end.

(** The lines of the report (lines 132-143). *)
Definition report_lines (limit : option Z) (totalCandidates : nat)
    (limitedCandidates : list json) (st : state) : list line :=
  [CandidatesFound totalCandidates]
  ++ match limit with
     | Some n =>
         if (n =? 0)%Z then []
         else [CandidatesProcessed n (length limitedCandidates)]
     | None => []
     end
  ++ [ProductionsCreated (createdCount st);
      ProductionsUpdated (updatedCount st);
      ThemesUnchanged (themesUnchangedCount st)]
  ++ (if 0 <? themeMismatchCount st
      then [ThemeMismatches (themeMismatchCount st)] else []).

(** The text written to the productions file. *)
Definition written_text (st : state) : string :=
  JSON_stringify_indent2 (JArr (productions st)) +:+ String newline EmptyString.

(** A string of decimal digits, and whether it denotes a positive integer. *)
Definition is_decimal (s : string) : bool :=
  negb (String.eqb s EmptyString)
  && forallb (λ c, bool_decide (is_Some (digit_value c))) (list_ascii_of_string s).


(** A host for the examples: its parser knows the texts of the examples,
    and paths are already resolved. *)
Definition quoted (s : string) : string :=
  String "034"%char s +:+ String "034"%char EmptyString.

(** The text [[{"id":1}]]. *)
Definition one_candidate_text : string := "[{" +:+ quoted "id" +:+ ":1}]".

Definition example_parse (raw : string) : option json :=
  if String.eqb raw "[]" then Some (JArr [])
  else if String.eqb raw "{}" then Some (JObj [])
  else if String.eqb raw one_candidate_text then Some (JArr [JObj [("id", JNum 1)]])
  else None.

Definition example_host : Host :=
  {| JSON_parse := example_parse; path_resolve := λ p, p |}.

Definition example_world : world :=
  World {[ DEFAULT_CANDIDATES_PATH := one_candidate_text;
           DEFAULT_OUTPUT_PATH := "[]" ]} [].

(** A world whose productions file holds an object, not an array. *)
Definition broken_world : world :=
  World {[ DEFAULT_CANDIDATES_PATH := one_candidate_text;
           DEFAULT_OUTPUT_PATH := "{}" ]} [].

(** The records of the worked example of the specification. *)
Definition existing_a : json :=
  JObj [("id", JStr "a"); ("themes", JArr [JStr "x"]); ("city", JStr "NY")].

Definition candidate_a : json :=
  JObj [("id", JStr "a"); ("themes", JArr [JStr "y"]); ("city", JStr "LA")].

Definition candidate_b : json :=
  JObj [("id", JStr "b"); ("themes", JArr [JStr "z"])].

Definition merged_a : json :=
  JObj [("id", JStr "a"); ("themes", JArr [JStr "x"]); ("city", JStr "LA")].

(** A candidate without [themes]. *)
Definition bare_b : json := JObj [("id", JStr "b")].

(** A production without [themes], as the script itself appends one from a
    partial candidate. *)
Definition bare_a : json := JObj [("id", JStr "a"); ("city", JStr "NY")].

(** The 256 characters. *)
Definition all_ascii : list ascii := ascii_of_nat <$> seq 0 256.

(** ** Notions for the further properties *)

(** An option token [--name]. *)
Definition option_token (name : string) : string :=
  String "-" (String "-" name).

(** A word that [parseArgs] takes as the value of the option before it. *)
Definition plain_word (v : string) : Prop :=
  v ≠ EmptyString ∧ startsWith v "--" = false.

(** A value with no identity of its own: not an array, not an object. *)
Definition primitive (v : json) : bool :=
  match v with
  | JArr _ | JObj _ => false
  | _ => true
  end.

(** The candidate passes the guards of the loop. *)
Definition passes_guards (candidate : json) : bool :=
  match candidate_id candidate with
  | Some _ => true
  | None => false
  end.

(** Lines 54-130 of [main]: all that a run does before it reports.  It
    hands the limit, the candidates, the limited candidates and the outcome
    of the merge to the report. *)
Definition prepare `{Host} (args : gmap string string)
    : IO (option Z * list json * list json * state) :=
  let candidatesPath := get_or args "candidates" DEFAULT_CANDIDATES_PATH in
  let outputPath := get_or args "output" DEFAULT_OUTPUT_PATH in
  run limit <- lift (parseLimit (args !! "limit"));
  let resolvedCandidatesPath := path_resolve candidatesPath in
  let resolvedOutputPath := path_resolve outputPath in
  run candidates <- readJson resolvedCandidatesPath;
  run productions <- readJson resolvedOutputPath;
  match candidates, productions with
  | JArr candidateItems, JArr productionItems =>
      let limitedCandidates := limitCandidates limit candidateItems in
      run st <- lift (merge limitedCandidates productionItems);
      io_ret (limit, candidateItems, limitedCandidates, st)
  | JArr _, _ => throw (Error "Productions file must contain an array.")
  | _, _ => throw (Error "Candidates file must contain an array.")
  end.

(** The errors with which a run can end before it reports: the rejected
    limit, what reading one of the two files throws, the error of the
    parser, the two complaints of [main], and the error of the merge. *)
Definition run_error `{Host} (args : gmap string string) (w : world) (e : error)
    : Prop :=
  (∃ value, args !! "limit" = Some value ∧ e = invalid_limit value)
  ∨ (readFile (candidates_path args) w).1 = Err e
  ∨ (readFile (output_path args) w).1 = Err e
  ∨ e = SyntaxError
  ∨ e = Error "Candidates file must contain an array."
  ∨ e = Error "Productions file must contain an array."
  ∨ e = TypeError.

(** The integers that a Number holds exactly and that the script prints
    with all their digits, and the values all of whose numbers are such. *)
Definition safe_integer (n : Z) : bool := (Z.abs n <=? 2 ^ 53 - 1)%Z.

Fixpoint safe_numbers (v : json) : bool :=
  match v with
  | JNum n => safe_integer n
  | JArr items => forallb safe_numbers items
  | JObj props => forallb (λ kv, safe_numbers kv.2) props
  | _ => true
  end.

(** ** The operations on small inputs *)

Module Examples.

Example truthy_values :
  truthy (JStr EmptyString) = false ∧ truthy (JNum 0) = false ∧ truthy JNull = false
  ∧ truthy (JArr []) = true ∧ truthy (JObj []) = true ∧ truthy (JStr "0") = true.
Proof. repeat split. Qed.

Example stringify_compact :
  JSON_stringify (JArr [JNum 1; JNum (-20); JBool true; JNull; JArr []; JObj []])
    = "[1,-20,true,null,[],{}]".
Proof. reflexivity. Qed.

Example stringify_object :
  JSON_stringify existing_a
    = "{" +:+ quoted "id" +:+ ":" +:+ quoted "a" +:+ ","
        +:+ quoted "themes" +:+ ":[" +:+ quoted "x" +:+ "],"
        +:+ quoted "city" +:+ ":" +:+ quoted "NY" +:+ "}".
Proof. reflexivity. Qed.

Example stringify_escapes :
  JSON_stringify (JStr (String "010"%char (String "034"%char "\")))
    = quoted ("\n\" +:+ String "034"%char "\\").
Proof. reflexivity. Qed.

Example stringify_indented :
  JSON_stringify_indent2 (JArr [JObj [("n", JArr [JNum 1; JNum 2])]; JArr []])
    = "[" +:+ String newline "  {"
        +:+ String newline ("    " +:+ quoted "n" +:+ ": [")
        +:+ String newline "      1,"
        +:+ String newline "      2"
        +:+ String newline "    ]"
        +:+ String newline "  },"
        +:+ String newline "  []"
        +:+ String newline "]".
Proof. reflexivity. Qed.

Example property_order :
  CreateDataProperty [("10", JNull); ("id", JNull)] "2" JNull
    = [("2", JNull); ("10", JNull); ("id", JNull)]
  ∧ CreateDataProperty [("10", JNull); ("id", JNull)] "02" JNull
    = [("10", JNull); ("id", JNull); ("02", JNull)]
  ∧ CreateDataProperty [("10", JNull); ("id", JNull)] "id" (JNum 1)
    = [("10", JNull); ("id", JNum 1)].
Proof. repeat split. Qed.

Example spread_overrides :
  mergeRecord existing_a candidate_a (JArr [JStr "x"]) = merged_a.
Proof. reflexivity. Qed.

Example parseInt_values :
  parseInt "42" = Some 42%Z ∧ parseInt "  +7" = Some 7%Z ∧ parseInt "-3x" = Some (-3)%Z
  ∧ parseInt "1.5" = Some 1%Z ∧ parseInt EmptyString = None ∧ parseInt "- 1" = None.
Proof. repeat split. Qed.

Example parseInt_rounds :
  parseInt "9007199254740992" = Some 9007199254740992%Z
  ∧ parseInt "9007199254740993" = Some 9007199254740992%Z
  ∧ parseInt "9007199254740995" = Some 9007199254740996%Z
  ∧ parseInt "-36028797018963975" = Some (-36028797018963976)%Z
  ∧ parseInt "1000000000000000000000001" = Some 999999999999999983222784%Z
  ∧ to_double (2 ^ 1024 - 2 ^ 970 - 1) = (2 ^ 1024 - 2 ^ 971)%Z
  ∧ to_double (2 ^ 1024 - 2 ^ 970) = (2 ^ 1024)%Z
  ∧ to_double (10 ^ 400) = (2 ^ 1024)%Z.
Proof. repeat split; vm_compute; reflexivity. Qed.

Example parseLimit_values :
  parseLimit None = Ok None ∧ parseLimit (Some "3") = Ok (Some 3%Z)
  ∧ parseLimit (Some "0") = Err (invalid_limit "0")
  ∧ parseLimit (Some "-1") = Err (invalid_limit "-1")
  ∧ parseLimit (Some "abc") = Err (invalid_limit "abc").
Proof. repeat split. Qed.

Example parseArgs_values :
  parseArgs ["--limit"; "5"; "--dry-run"; "--output"; "x.json"]
    = ({[ "limit" := "5"; "output" := "x.json" ]}, {[ "dry-run" ]})
  ∧ parseArgs ["--dry-run"; "x.json"] = ({[ "dry-run" := "x.json" ]}, ∅)
  ∧ parseArgs ["--limit"] = (∅, {[ "limit" ]}).
Proof. repeat split; by vm_compute. Qed.

Example areArraysEqual_values :
  areArraysEqual false (JArr [JStr "x"]) (JArr [JStr "x"]) = Ok true
  ∧ areArraysEqual false (JArr [JStr "x"]) (JArr [JStr "y"]) = Ok false
  ∧ areArraysEqual false (JArr [JArr []]) (JArr [JArr []]) = Ok false
  ∧ areArraysEqual false (JArr [JStr "a"; JStr "b"]) (JStr "ab") = Ok true
  ∧ areArraysEqual false (JStr "ab") (JStr "ab") = Err TypeError
  ∧ areArraysEqual false (JStr "ab") (JArr []) = Ok false.
Proof. repeat split. Qed.

Example index_last_wins :
  buildIndex [existing_a; bare_a; candidate_b; JNum 3]
    = Ok {[ KStr "a" := 1; KStr "b" := 2 ]}
  ∧ buildIndex [existing_a; JNull] = Err TypeError.
Proof. split; by vm_compute. Qed.

End Examples.

(** ** [JSON.stringify] is injective

    The script decides whether a record changed by comparing two
    serializations.  The compact serialization determines the value: no
    serialization is a proper prefix of another, up to the digits of a
    number, which end where a character that is not a digit begins. *)

Module StringifyFacts.

Local Abbreviation compact := (SerializeJSONProperty [] []).

Lemma uint_chars_prefix d : ∀ d' r r',
  uint_chars d ++ r = uint_chars d' ++ r' →
  delimited r → delimited r' → d = d' ∧ r = r'.
Proof.
  unfold uint_chars.
  induction d; destruct d'; simpl; intros r r' Heq Hr Hr';
    try (subst; simpl in *; done);
    try (injection Heq as Heq; try discriminate;
         by destruct (IHd _ _ _ Heq Hr Hr') as [-> ->]).
Qed.

Lemma uint_chars_head d :
  d ≠ Decimal.Nil → ∃ c rest, uint_chars d = c :: rest ∧ is_Some (digit_value c).
Proof. destruct d; [done|..]; intros _; simpl; eauto. Qed.

Lemma to_int_nonnil n d :
  Z.to_int n = Decimal.Pos d ∨ Z.to_int n = Decimal.Neg d → d ≠ Decimal.Nil.
Proof.
  destruct n; simpl; intros [Heq|Heq]; inversion Heq; subst; try done;
    apply DecimalPos.Unsigned.to_uint_nonnil.
Qed.

Lemma number_chars_head n :
  ∃ c rest, list_ascii_of_string (NumberToString n) = c :: rest
            ∧ (c = "-"%char ∨ is_Some (digit_value c)).
Proof.
  unfold NumberToString. destruct (Z.to_int n) as [d|d] eqn:Hn.
  - destruct (uint_chars_head d) as (c & rest & Hd & Hc);
      [eapply to_int_nonnil; eauto|].
    exists c, rest. split; [exact Hd | by right].
  - simpl. eauto.
Qed.

Lemma number_chars_prefix n n' r r' :
  list_ascii_of_string (NumberToString n) ++ r
    = list_ascii_of_string (NumberToString n') ++ r' →
  delimited r → delimited r' → n = n' ∧ r = r'.
Proof.
  unfold NumberToString.
  destruct (Z.to_int n) as [d|d] eqn:Hn, (Z.to_int n') as [d'|d'] eqn:Hn';
    simpl; intros Heq Hr Hr'.
  - destruct (uint_chars_prefix _ _ _ _ Heq Hr Hr') as [-> ->].
    split; [|done]. apply DecimalZ.to_int_inj. congruence.
  - destruct (uint_chars_head d) as (c & rest & Hd & Hc);
      [eapply to_int_nonnil; eauto|].
    unfold uint_chars in Hd. rewrite Hd in Heq. injection Heq as -> _.
    by destruct Hc.
  - destruct (uint_chars_head d') as (c & rest & Hd & Hc);
      [eapply to_int_nonnil; eauto|].
    unfold uint_chars in Hd. rewrite Hd in Heq. injection Heq as <- _.
    by destruct Hc.
  - injection Heq as Heq.
    destruct (uint_chars_prefix _ _ _ _ Heq Hr Hr') as [-> ->].
    split; [|done]. apply DecimalZ.to_int_inj. congruence.
Qed.

(** Every character is one of the 256. *)
Lemma all_ascii_complete c : c ∈ all_ascii.
Proof.
  unfold all_ascii. apply list_elem_of_fmap. exists (nat_of_ascii c).
  split; [by rewrite ascii_nat_embedding|].
  apply elem_of_seq. pose proof (nat_ascii_bounded c). lia.
Qed.

(** The escapes form a prefix code, and none begins with a quote. *)
Lemma QuoteJSONChar_code :
  Forall (λ c, Forall (λ c', QuoteJSONChar c `prefix_of` QuoteJSONChar c' → c = c')
                 all_ascii) all_ascii.
Proof. refine (bool_decide_unpack _ _). vm_compute. exact I. Qed.

Lemma QuoteJSONChar_heads :
  Forall (λ c, ∃ c0 rest, QuoteJSONChar c = c0 :: rest ∧ c0 ≠ "034"%char) all_ascii.
Proof.
  apply Forall_forall. intros c _.
  destruct c as [[] [] [] [] [] [] [] []]; simpl; eauto.
Qed.

Lemma QuoteJSONChar_prefix c c' :
  QuoteJSONChar c `prefix_of` QuoteJSONChar c' → c = c'.
Proof.
  pose proof QuoteJSONChar_code as Hall.
  rewrite Forall_forall in Hall. specialize (Hall c (all_ascii_complete c)).
  rewrite Forall_forall in Hall. exact (Hall c' (all_ascii_complete c')).
Qed.

Lemma QuoteJSONChar_head c :
  ∃ c0 rest, QuoteJSONChar c = c0 :: rest ∧ c0 ≠ "034"%char.
Proof.
  pose proof QuoteJSONChar_heads as Hall.
  rewrite Forall_forall in Hall. exact (Hall c (all_ascii_complete c)).
Qed.

(** The escaped characters of a string end at the first bare quote. *)
Lemma quoted_prefix s : ∀ s' r r',
  flat_map QuoteJSONChar (list_ascii_of_string s) ++ "034"%char :: r
    = flat_map QuoteJSONChar (list_ascii_of_string s') ++ "034"%char :: r' →
  s = s' ∧ r = r'.
Proof.
  induction s as [|c s IH]; intros [|c' s'] r r'; simpl; intros Heq.
  - by injection Heq.
  - destruct (QuoteJSONChar_head c') as (c0 & rest & Hq & Hne).
    rewrite Hq in Heq. simpl in Heq. injection Heq as Hc _. congruence.
  - destruct (QuoteJSONChar_head c) as (c0 & rest & Hq & Hne).
    rewrite Hq in Heq. simpl in Heq. injection Heq as Hc _. congruence.
  - rewrite <- !app_assoc in Heq.
    assert (c = c') as <-.
    { apply app_eq_inv in Heq as [(k & Hk & _)|(k & Hk & _)].
      - symmetry. apply QuoteJSONChar_prefix. by exists k.
      - apply QuoteJSONChar_prefix. by exists k. }
    apply app_inv_head in Heq.
    by destruct (IH _ _ _ Heq) as [-> ->].
Qed.

Lemma QuoteJSONString_prefix s s' r r' :
  QuoteJSONString s ++ r = QuoteJSONString s' ++ r' → s = s' ∧ r = r'.
Proof.
  unfold QuoteJSONString. rewrite <- !app_assoc. simpl.
  intros Heq. injection Heq as Heq. by apply quoted_prefix.
Qed.

Lemma join_cons sep p ps :
  join sep (p :: ps) = p ++ match ps with [] => [] | _ => sep ++ join sep ps end.
Proof. destruct ps; simpl; [by rewrite app_nil_r | done]. Qed.

(** The members of an array or object, up to the closing bracket. *)
Section members.
Context {A : Type} (f : A → list ascii) (close : ascii).
Hypothesis close_not_digit : digit_value close = None.
Hypothesis close_not_comma : close ≠ ","%char.
Hypothesis f_head : ∀ a, ∃ c rest, f a = c :: rest ∧ c ≠ close.

Lemma join_prefix l :
  Forall (λ a, ∀ a' r r', f a ++ r = f a' ++ r' →
                 delimited r → delimited r' → a = a' ∧ r = r') l →
  ∀ l' r r',
    join [","%char] (f <$> l) ++ close :: r
      = join [","%char] (f <$> l') ++ close :: r' →
    l = l' ∧ r = r'.
Proof using close_not_digit close_not_comma f_head.
  induction 1 as [|a l Ha _ IH]; intros [|a' l'] r r' Heq.
  - simpl in Heq. by injection Heq.
  - rewrite fmap_cons, join_cons in Heq.
    destruct (f_head a') as (c & rest & Hf & Hne). rewrite Hf in Heq.
    simpl in Heq. injection Heq as Hc _. congruence.
  - rewrite fmap_cons, join_cons in Heq.
    destruct (f_head a) as (c & rest & Hf & Hne). rewrite Hf in Heq.
    simpl in Heq. injection Heq as Hc _. congruence.
  - rewrite !fmap_cons, !join_cons, <- !app_assoc in Heq.
    apply Ha in Heq as [<- Heq].
    + destruct l as [|b l], l' as [|b' l'].
      * simpl in Heq. by injection Heq as <-.
      * simpl in Heq. injection Heq as Hc _. congruence.
      * simpl in Heq. injection Heq as Hc _. congruence.
      * change (","%char :: (join [","%char] (f <$> b :: l) ++ close :: r)
                = ","%char :: (join [","%char] (f <$> b' :: l') ++ close :: r'))
          in Heq.
        injection Heq as Heq. by destruct (IH (b' :: l') r r' Heq) as [-> ->].
    + by destruct (f <$> l).
    + by destruct (f <$> l').
Qed.
End members.

Lemma wrap_compact stepback indent open close partial :
  wrap [] stepback indent open close partial
    = open :: join [","%char] partial ++ [close].
Proof. by destruct partial. Qed.

Lemma digit_char_kind c : is_Some (digit_value c) → char_kind c = Some 2.
Proof.
  intros [d Hd]. destruct c as [[] [] [] [] [] [] [] []]; by simpl in *.
Qed.

Lemma compact_head v :
  ∃ c rest, compact v = c :: rest ∧ char_kind c = Some (value_kind v).
Proof.
  destruct v as [|[]|n|s|items|props]; simpl; eauto.
  - destruct (number_chars_head n) as (c & rest & -> & [->|Hc]); eauto.
    eauto using digit_char_kind.
  - rewrite wrap_compact. eauto.
  - rewrite wrap_compact. eauto.
Qed.

Lemma compact_prefix v : ∀ v' r r',
  compact v ++ r = compact v' ++ r' →
  delimited r → delimited r' → v = v' ∧ r = r'.
Proof.
  induction v as [|b|n|s|items IH|props IH] using json_ind;
    intros v' r r' Heq Hr Hr';
    match type of Heq with
    | compact ?v ++ _ = _ =>
        assert (value_kind v' = value_kind v) as Hkind;
        [ destruct (compact_head v') as (c' & rest' & Hv' & Hc');
          destruct (compact_head v) as (c & rest & Hv & Hc);
          rewrite Hv, Hv' in Heq; injection Heq as <- _;
          rewrite Hc in Hc'; injection Hc' as Hc'; symmetry; exact Hc'
        | destruct v'; try discriminate Hkind; clear Hkind ]
    end.
  - simpl in Heq. by simplify_eq.
  - destruct b, b0; simpl in Heq; by simplify_eq.
  - simpl in Heq. by destruct (number_chars_prefix _ _ _ _ Heq Hr Hr') as [-> ->].
  - simpl in Heq. by destruct (QuoteJSONString_prefix _ _ _ _ Heq) as [-> ->].
  - simpl in Heq. rewrite !wrap_compact in Heq. simpl in Heq.
    injection Heq as Heq. rewrite <- !app_assoc in Heq. simpl in Heq.
    eapply (join_prefix compact "]"%char) in Heq as [-> ->]; try done.
    intros a. destruct (compact_head a) as (c & rest & -> & Hc).
    exists c, rest. split; [done|]. by intros ->.
  - simpl in Heq. rewrite !wrap_compact in Heq. simpl in Heq.
    injection Heq as Heq. rewrite <- !app_assoc in Heq. simpl in Heq.
    eapply (join_prefix _ "}"%char) in Heq as [-> ->]; try done.
    + intros [k w]. unfold QuoteJSONString. simpl. eauto.
    + eapply Forall_impl; [exact IH|].
      intros [k w] Hw [k' w'] r1 r1'. simpl. rewrite <- !app_assoc. simpl.
      intros Hm Hr1 Hr1'.
      injection Hm as Hm. apply quoted_prefix in Hm as [-> Hm].
      injection Hm as Hm. simpl in Hw.
      by destruct (Hw _ _ _ Hm Hr1 Hr1') as [<- <-].
Qed.

Theorem JSON_stringify_inj v v' :
  JSON_stringify v = JSON_stringify v' → v = v'.
Proof.
  unfold JSON_stringify. intros Heq.
  apply (f_equal list_ascii_of_string) in Heq.
  rewrite !list_ascii_of_string_of_list_ascii in Heq.
  assert (compact v ++ [] = compact v' ++ []) as Happ by by rewrite !app_nil_r.
  by destruct (compact_prefix _ _ _ _ Happ I I).
Qed.

End StringifyFacts.

(** ** Properties of objects *)

Module ObjectFacts.

Lemma eqb_string_true (a b : string) : String.eqb a b = true ↔ a = b.
Proof. apply String.eqb_eq. Qed.

Lemma lookup_prop_cons name k v rest :
  lookup_prop name ((k, v) :: rest)
    = match lookup_prop name rest with
      | Some w => Some w
      | None => if String.eqb k name then Some v else None
      end.
Proof. done. Qed.

Lemma lookup_prop_app name a b :
  lookup_prop name (a ++ b)
    = match lookup_prop name b with
      | Some w => Some w
      | None => lookup_prop name a
      end.
Proof.
  induction a as [|[k v] a IH]; simpl.
  - by destruct (lookup_prop name b).
  - rewrite IH. by destruct (lookup_prop name b).
Qed.

Lemma lookup_prop_insert name name' v l1 l2 :
  lookup_prop name' (l1 ++ (name, v) :: l2)
    = if String.eqb name name'
      then match lookup_prop name' l2 with Some w => Some w | None => Some v end
      else lookup_prop name' (l1 ++ l2).
Proof.
  rewrite !lookup_prop_app, lookup_prop_cons.
  destruct (lookup_prop name' l2); destruct (String.eqb name name'); try done.
Qed.

Lemma has_prop_true name props :
  has_prop name props = true ↔ is_Some (lookup_prop name props).
Proof.
  unfold has_prop. destruct (lookup_prop name props); split; try done.
Qed.

Lemma has_prop_false name props :
  has_prop name props = false ↔ lookup_prop name props = None.
Proof. unfold has_prop. by destruct (lookup_prop name props). Qed.

Lemma lookup_prop_elem_of name v props :
  lookup_prop name props = Some v → (name, v) ∈ props.
Proof.
  induction props as [|[k w] rest IH]; simpl; [done|].
  destruct (lookup_prop name rest) as [u|].
  - intros [= ->]. right. by apply IH.
  - destruct (String.eqb k name) eqn:Hk; [|done].
    apply eqb_string_true in Hk as ->. intros [= ->]. left.
Qed.

Lemma lookup_prop_None name props :
  lookup_prop name props = None ↔ name ∉ props.*1.
Proof.
  induction props as [|[k w] rest IH]; simpl.
  - split; [intros _; apply not_elem_of_nil | done].
  - rewrite not_elem_of_cons, <- IH.
    destruct (lookup_prop name rest); [by split; [|intros [_ ?]]|].
    destruct (String.eqb k name) eqn:Hk.
    + apply eqb_string_true in Hk. split; [done|]. by intros [? _].
    + apply String.eqb_neq in Hk. split; [|done]. intros _. by split.
Qed.

Lemma replace_prop_keys name v props :
  (replace_prop name v props).*1 = props.*1.
Proof.
  induction props as [|[k w] rest IH]; simpl; [done|].
  destruct (has_prop name rest); [by rewrite !fmap_cons, IH|].
  by destruct (String.eqb k name).
Qed.

Lemma lookup_replace_prop name name' v props :
  lookup_prop name props ≠ None →
  lookup_prop name' (replace_prop name v props)
    = if String.eqb name name' then Some v else lookup_prop name' props.
Proof.
  induction props as [|[k w] rest IH]; simpl; [done|].
  destruct (has_prop name rest) eqn:Hhas.
  - intros _. apply has_prop_true in Hhas as [u Hu].
    rewrite lookup_prop_cons, IH by by rewrite Hu.
    destruct (String.eqb name name') eqn:Hn; [done|].
    done.
  - apply has_prop_false in Hhas. rewrite Hhas.
    destruct (String.eqb k name) eqn:Hk; [intros _|done].
    apply eqb_string_true in Hk as ->.
    rewrite lookup_prop_cons.
    destruct (String.eqb name name') eqn:Hn.
    + apply eqb_string_true in Hn as <-. by rewrite Hhas.
    + done.
Qed.

Lemma place_index_split n name v props :
  ∃ l1 l2, props = l1 ++ l2 ∧ place_index n name v props = l1 ++ (name, v) :: l2.
Proof.
  induction props as [|[k w] rest (l1 & l2 & Hrest & Hplace)]; simpl.
  - by exists [], [].
  - destruct (array_index k) as [m|].
    + destruct (n <? m)%N.
      * by exists [], ((k, w) :: rest).
      * exists ((k, w) :: l1), l2. simpl. by rewrite Hplace, <- Hrest.
    + by exists [], ((k, w) :: rest).
Qed.

(** A created property is there, and the others are as before. *)
Lemma lookup_CreateDataProperty name name' v props :
  lookup_prop name' (CreateDataProperty props name v)
    = if String.eqb name name' then Some v else lookup_prop name' props.
Proof.
  unfold CreateDataProperty. destruct (has_prop name props) eqn:Hhas.
  - apply lookup_replace_prop. apply has_prop_true in Hhas as [u Hu]. by rewrite Hu.
  - apply has_prop_false in Hhas.
    assert (∀ l1 l2, props = l1 ++ l2 →
      lookup_prop name' (l1 ++ (name, v) :: l2)
        = if String.eqb name name' then Some v else lookup_prop name' props) as Hins.
    { intros l1 l2 ->. rewrite lookup_prop_insert.
      destruct (String.eqb name name') eqn:Hn; [|done].
      apply eqb_string_true in Hn as <-.
      rewrite lookup_prop_app in Hhas. by destruct (lookup_prop name l2). }
    destruct (array_index name) as [n|].
    + destruct (place_index_split n name v props) as (l1 & l2 & Hp & ->). by apply Hins.
    + apply (Hins props []). by rewrite app_nil_r.
Qed.

Lemma lookup_CreateDataProperty_eq name v props :
  lookup_prop name (CreateDataProperty props name v) = Some v.
Proof. by rewrite lookup_CreateDataProperty, String.eqb_refl. Qed.

Lemma lookup_CreateDataProperty_ne name name' v props :
  name ≠ name' →
  lookup_prop name' (CreateDataProperty props name v) = lookup_prop name' props.
Proof.
  intros Hne. rewrite lookup_CreateDataProperty.
  by apply String.eqb_neq in Hne as ->.
Qed.

(** A spread takes the properties of the source and keeps the others. *)
Lemma lookup_CopyDataProperties name source : ∀ target,
  lookup_prop name (CopyDataProperties target source)
    = match lookup_prop name source with
      | Some v => Some v
      | None => lookup_prop name target
      end.
Proof.
  unfold CopyDataProperties.
  induction source as [|[k v] source IH]; intros target; simpl; [done|].
  rewrite IH. destruct (lookup_prop name source); [done|].
  rewrite lookup_CreateDataProperty. by destruct (String.eqb k name).
Qed.

(** *** Objects in property order *)

Lemma place_index_elem_of n name v props kv :
  kv ∈ place_index n name v props ↔ kv = (name, v) ∨ kv ∈ props.
Proof.
  destruct (place_index_split n name v props) as (l1 & l2 & -> & ->).
  rewrite !elem_of_app, elem_of_cons. tauto.
Qed.

Lemma place_index_append n name v props :
  Forall (λ kv, ∃ m, array_index kv.1 = Some m ∧ (m ≤ n)%N) props →
  place_index n name v props = props ++ [(name, v)].
Proof.
  induction 1 as [|[k w] rest (m & Hm & Hle) _ IH]; simpl; [done|].
  simpl in Hm. rewrite Hm.
  destruct (n <? m)%N eqn:Hlt; [apply N.ltb_lt in Hlt; lia|]. by rewrite IH.
Qed.

Lemma index_ordered_app_inv names name rest :
  index_ordered (names ++ name :: rest) →
  ∀ n, array_index name = Some n →
    Forall (λ name', ∃ m, array_index name' = Some m ∧ (m ≤ n)%N) names.
Proof.
  induction names as [|x names IH]; simpl; intros Hord n Hn; [done|].
  destruct Hord as [Hx Hord]. constructor; [|by eapply IH].
  destruct (array_index x) as [m|].
  - exists m. split; [done|].
    rewrite Forall_app, Forall_cons in Hx. destruct Hx as (_ & Hname & _). auto.
  - rewrite Forall_app, Forall_cons in Hx. destruct Hx as (_ & Hname & _).
    congruence.
Qed.

Lemma index_ordered_snoc names name :
  index_ordered names → array_index name = None → index_ordered (names ++ [name]).
Proof.
  intros Hord Hname. induction names as [|x names IH]; simpl.
  - by rewrite Hname.
  - destruct Hord as [Hx Hord]. split; [|by apply IH].
    destruct (array_index x); rewrite Forall_app, Forall_singleton;
      (split; [done|]); [intros m; congruence | done].
Qed.

Lemma place_index_ordered n name v props :
  array_index name = Some n →
  index_ordered props.*1 → index_ordered (place_index n name v props).*1.
Proof.
  intros Hname. induction props as [|[k w] rest IH]; simpl; intros Hord.
  - by rewrite Hname.
  - destruct Hord as [Hk Hord]. destruct (array_index k) as [m|] eqn:Hkm.
    + destruct (n <? m)%N eqn:Hlt; simpl.
      * rewrite Hname, Hkm. split_and!; try done.
        apply N.ltb_lt in Hlt. constructor.
        -- intros m' Hm'. rewrite Hkm in Hm'. injection Hm' as <-. lia.
        -- eapply Forall_impl; [exact Hk|]. simpl. intros x Hx m' Hm'.
           specialize (Hx m' Hm'). lia.
      * rewrite Hkm. split; [|by apply IH].
        apply N.ltb_ge in Hlt. apply Forall_forall. intros x Hx m' Hm'.
        apply list_elem_of_fmap in Hx as ([k' w'] & -> & Hin).
        apply place_index_elem_of in Hin as [[= -> ->]|Hin].
        -- simpl in Hm'. rewrite Hname in Hm'. injection Hm' as <-. done.
        -- rewrite Forall_forall in Hk. apply (Hk k'); [|done].
           apply list_elem_of_fmap. by exists (k', w').
    + simpl. rewrite Hname, Hkm. split_and!; try done.
      constructor; [intros m; congruence|].
      eapply Forall_impl; [exact Hk|]. simpl. intros x Hx m. congruence.
Qed.

Lemma place_index_NoDup n name v props :
  name ∉ props.*1 → NoDup props.*1 → NoDup (place_index n name v props).*1.
Proof.
  destruct (place_index_split n name v props) as (l1 & l2 & -> & ->).
  rewrite !fmap_app, fmap_cons. simpl. intros Hnot Hnodup.
  apply NoDup_app in Hnodup as (H1 & H12 & H2).
  rewrite not_elem_of_app in Hnot. destruct Hnot as [Hn1 Hn2].
  apply NoDup_app. split_and!; [done| |by constructor].
  intros x Hx [->|Hx2]%elem_of_cons; [done|]. by eapply H12.
Qed.

(** Creating a property keeps a property list in order. *)
Lemma js_object_CreateDataProperty props name v :
  js_object props → js_object (CreateDataProperty props name v).
Proof.
  intros [Hnodup Hord]. unfold CreateDataProperty, js_object.
  destruct (has_prop name props) eqn:Hhas.
  - by rewrite replace_prop_keys.
  - apply has_prop_false, lookup_prop_None in Hhas.
    destruct (array_index name) as [n|] eqn:Hname.
    + split; [by apply place_index_NoDup | by apply place_index_ordered].
    + rewrite fmap_app. simpl. split; [|by apply index_ordered_snoc].
      apply NoDup_app. split_and!; [done| |apply NoDup_singleton].
      by intros x Hx ->%list_elem_of_singleton.
Qed.

Lemma js_object_CopyDataProperties source : ∀ target,
  js_object target → js_object (CopyDataProperties target source).
Proof.
  unfold CopyDataProperties.
  induction source as [|[k v] source IH]; intros target Htarget; simpl; [done|].
  by apply IH, js_object_CreateDataProperty.
Qed.

Lemma js_object_nil : js_object [].
Proof. split; [constructor | done]. Qed.

(** Copying an object onto an empty one gives the object back. *)
Lemma CopyDataProperties_onto props : ∀ target,
  js_object (target ++ props) →
  CopyDataProperties target props = target ++ props.
Proof.
  unfold CopyDataProperties.
  induction props as [|[k v] props IH]; intros target Hobj; simpl.
  - by rewrite app_nil_r.
  - assert (CreateDataProperty target k v = target ++ [(k, v)]) as ->.
    { destruct Hobj as [Hnodup Hord]. rewrite fmap_app, fmap_cons in Hnodup, Hord.
      simpl in Hnodup, Hord.
      apply NoDup_app in Hnodup as (_ & Hnot & _).
      assert (k ∉ target.*1) as Hk by (intros Hk; apply (Hnot k Hk); left).
      apply lookup_prop_None, has_prop_false in Hk.
      unfold CreateDataProperty. rewrite Hk.
      destruct (array_index k) as [n|] eqn:Hn; [|done].
      apply place_index_append.
      pose proof (index_ordered_app_inv _ _ _ Hord n Hn) as Hall.
      by rewrite Forall_fmap in Hall. }
    rewrite IH; rewrite <- app_assoc; done.
Qed.

Lemma CopyDataProperties_nil props :
  js_object props → CopyDataProperties [] props = props.
Proof. intros Hobj. by apply (CopyDataProperties_onto props []). Qed.

(** Two objects with the same names in the same order and the same values
    are the same. *)
Lemma props_ext props props' :
  NoDup props.*1 → props.*1 = props'.*1 →
  (∀ name, lookup_prop name props = lookup_prop name props') →
  props = props'.
Proof.
  revert props'. induction props as [|[k v] props IH]; intros [|[k' v'] props'];
    simpl; try done.
  intros Hnodup [= <- Hkeys0] Hlook. apply NoDup_cons in Hnodup as [Hk Hnodup].
  assert (props.*1 = props'.*1) as Hkeys by exact Hkeys0.
  assert (lookup_prop k props = None) as Hnone by by apply lookup_prop_None.
  assert (lookup_prop k props' = None) as Hnone'
    by (apply lookup_prop_None; by rewrite <- Hkeys).
  pose proof (Hlook k) as Hv. rewrite Hnone, Hnone', String.eqb_refl in Hv.
  injection Hv as <-. f_equal. apply IH; [done..|].
  intros name. specialize (Hlook name).
  destruct (String.eqb k name) eqn:Hname.
  - apply eqb_string_true in Hname as <-. by rewrite Hnone, Hnone'.
  - destruct (lookup_prop name props), (lookup_prop name props'); congruence.
Qed.

Lemma CreateDataProperty_keys props name v :
  lookup_prop name props ≠ None →
  (CreateDataProperty props name v).*1 = props.*1.
Proof.
  intros Hsome. unfold CreateDataProperty.
  destruct (has_prop name props) eqn:Hhas; [apply replace_prop_keys|].
  by apply has_prop_false in Hhas.
Qed.

Lemma CopyDataProperties_keys source : ∀ target,
  (∀ name, name ∈ source.*1 → lookup_prop name target ≠ None) →
  (CopyDataProperties target source).*1 = target.*1.
Proof.
  unfold CopyDataProperties.
  induction source as [|[k v] source IH]; intros target Hall; simpl; [done|].
  rewrite IH.
  - apply CreateDataProperty_keys, Hall. left.
  - intros name Hname. rewrite lookup_CreateDataProperty.
    destruct (String.eqb k name); [done|]. apply Hall. by right.
Qed.

Lemma lookup_prop_is_Some name props :
  name ∈ props.*1 → lookup_prop name props ≠ None.
Proof. intros Hin Hnone. by apply lookup_prop_None in Hnone. Qed.

End ObjectFacts.

(** ** The loop over the candidates, step by step *)

Module StepFacts.
Import ObjectFacts.

#[local] Arguments Map_get : simpl never.
#[local] Arguments areArraysEqual : simpl never.
#[local] Arguments mergeRecord : simpl never.
#[local] Arguments hasChanges : simpl never.

Lemma hasChanges_false existing merged :
  hasChanges existing merged = false ↔ existing = merged.
Proof.
  unfold hasChanges, normalizeRecord. rewrite negb_false_iff, String.eqb_eq.
  split; [apply StringifyFacts.JSON_stringify_inj | by intros ->].
Qed.

Lemma hasChanges_true existing merged :
  hasChanges existing merged = true ↔ existing ≠ merged.
Proof.
  rewrite <- hasChanges_false. by destruct (hasChanges existing merged).
Qed.

Lemma truthy_or_empty o : truthy (or_empty o) = true.
Proof. destruct o as [v|]; simpl; [|done]. by destruct (truthy v) eqn:Hv. Qed.

Lemma or_empty_truthy v : truthy v = true → or_empty (Some v) = v.
Proof. simpl. by intros ->. Qed.

Lemma or_empty_idem o : or_empty (Some (or_empty o)) = or_empty o.
Proof. apply or_empty_truthy, truthy_or_empty. Qed.

Lemma strict_equals_same v : strict_equals true v v = true.
Proof.
  destruct v; simpl; try done.
  - by destruct b.
  - apply Z.eqb_refl.
  - apply String.eqb_refl.
Qed.

Lemma strict_equals_opt_same o : strict_equals_opt true o o = true.
Proof. destruct o; simpl; [apply strict_equals_same | done]. Qed.

(** The second comparison of the loop compares the kept themes with
    themselves: it holds, or throws when the themes are no array. *)
Lemma areArraysEqual_same t :
  truthy t = true →
  areArraysEqual true t t = if is_array t then Ok true else Err TypeError.
Proof.
  intros Ht. unfold areArraysEqual.
  destruct (get_length t) as [len|] eqn:Hlen; [|by destruct t].
  simpl. rewrite strict_equals_opt_same. simpl.
  destruct t as [| | | |items|]; try done. simpl. f_equal.
  apply forallb_forall. intros b [i Hi]%list_elem_of_In%list_elem_of_lookup.
  rewrite list_lookup_imap in Hi.
  destruct (items !! i) as [v|] eqn:Hv; [|done].
  simpl in Hi. injection Hi as <-. apply strict_equals_same.
Qed.

Lemma areArraysEqual_array same items right :
  right ≠ JNull → ∃ b, areArraysEqual same (JArr items) right = Ok b.
Proof.
  intros Hr. unfold areArraysEqual. simpl.
  destruct (get_length right) as [len|] eqn:Hlen; [|by destruct right].
  simpl. destruct (negb _); eauto.
Qed.

Lemma candidate_id_guards c id :
  candidate_id c = Some id →
  ∃ props, c = JObj props ∧ lookup_prop "id" props = Some id ∧ truthy id = true.
Proof.
  destruct c as [| | | | |props]; try done. simpl.
  destruct (lookup_prop "id" props) as [v|] eqn:Hl; [|done].
  destruct (truthy v) eqn:Hv; [|done]. intros [= <-]. by exists props.
Qed.

(** A candidate that fails the guards is skipped. *)
Lemma processCandidate_skip idx st c :
  candidate_id c = None → processCandidate idx st c = Ok st.
Proof.
  unfold processCandidate. destruct c as [|b|n|s|items|props]; simpl; try done.
  - by destruct b.
  - by destruct (negb (n =? 0)%Z).
  - by destruct (negb (String.eqb s EmptyString)).
  - destruct (lookup_prop "id" props) as [v|]; [|done].
    simpl. by destruct (truthy v).
Qed.

(** A candidate with an unknown [id] is appended. *)
Lemma processCandidate_create idx st c id :
  candidate_id c = Some id → Map_get idx (Some id) = None →
  processCandidate idx st c
    = Ok (State (productions st ++ [c]) (createdCount st + 1) (updatedCount st)
            (themesUnchangedCount st) (themeMismatchCount st)).
Proof.
  intros (props & -> & Hid & Hty)%candidate_id_guards Hget.
  unfold processCandidate. simpl. rewrite Hid. simpl. rewrite Hty. simpl.
  by rewrite Hget.
Qed.

Lemma get_prop_mergeRecord_themes existing c t :
  get_prop (mergeRecord existing c t) "themes" = Ok (Some t).
Proof.
  unfold mergeRecord. simpl. by rewrite lookup_CreateDataProperty_eq.
Qed.

Lemma get_prop_kept_themes existing o :
  get_prop existing "themes" = Ok o → or_empty o = kept_themes existing.
Proof. destruct existing; simpl; try done; by intros [= <-]. Qed.

(** What a run of the loop body on a candidate with a known [id] did,
    when it did not throw. *)
Lemma processCandidate_match_inv idx st c id i st' :
  candidate_id c = Some id → Map_get idx (Some id) = Some i →
  processCandidate idx st c = Ok st' →
  ∃ existing themes_equal,
    productions st !! i = Some existing
    ∧ existing ≠ JNull
    ∧ is_array (kept_themes existing) = true
    ∧ areArraysEqual false (kept_themes existing)
        (kept_themes c) = Ok themes_equal
    ∧ let merged := mergeRecord existing c (kept_themes existing) in
      st' = State
              (if hasChanges existing merged
               then <[i := merged]> (productions st) else productions st)
              (createdCount st)
              (if hasChanges existing merged
               then updatedCount st + 1 else updatedCount st)
              (themesUnchangedCount st + 1)
              (if themes_equal
               then themeMismatchCount st else themeMismatchCount st + 1).
Proof.
  intros (props & -> & Hid & Hty)%candidate_id_guards Hget.
  unfold processCandidate. simpl. rewrite Hid. simpl. rewrite Hty. simpl.
  rewrite Hget. unfold get_element.
  destruct (productions st !! i) as [existing|] eqn:Hex; [|done]. simpl.
  destruct (get_prop existing "themes") as [o|] eqn:Ho; [|done]. simpl.
  rewrite (get_prop_kept_themes _ _ Ho).
  destruct (areArraysEqual false _ _) as [themes_equal|] eqn:Heq; [|done]. simpl.
  rewrite lookup_CreateDataProperty_eq.
  rewrite <- (get_prop_kept_themes _ _ Ho), or_empty_idem,
    areArraysEqual_same by apply truthy_or_empty.
  rewrite (get_prop_kept_themes _ _ Ho).
  destruct (is_array (kept_themes existing)) eqn:Harr; [|done]. simpl.
  intros Hst. exists existing, themes_equal.
  split_and!; try done.
  - by destruct existing.
  - destruct (hasChanges _ _); by injection Hst as <-.
Qed.

(** *** The index of the productions *)

Lemma indexProduction_Ok m p n m' :
  indexProduction m p n = Ok m' →
  m' = match record_key p with Some k => <[k := n]> m | None => m end.
Proof.
  unfold indexProduction, record_key.
  destruct p as [| | | | |props]; simpl; try by intros [= <-].
  destruct (lookup_prop "id" props) as [id|]; simpl; [|by intros [= <-]].
  destruct (truthy id); simpl; [|by intros [= <-]].
  unfold Map_set. by intros [= <-].
Qed.

Lemma indexProduction_total m p n :
  p ≠ JNull → ∃ m', indexProduction m p n = Ok m'.
Proof.
  intros Hp. unfold indexProduction.
  destruct p as [| | | | |props]; simpl; try done; eauto.
  destruct (lookup_prop "id" props) as [id|]; eauto.
  destruct (truthy id); eauto.
Qed.

Lemma buildIndex_from_lookup ps : ∀ n m idx,
  buildIndex_from n ps m = Ok idx →
  ∀ k, idx !! k = match last_index k ps n with Some i => Some i | None => m !! k end.
Proof.
  induction ps as [|p ps IH]; simpl; intros n m idx Hidx k.
  - by injection Hidx as <-.
  - destruct (indexProduction m p n) as [m'|] eqn:Hp; [|done]. simpl in Hidx.
    rewrite (IH _ _ _ Hidx k). destruct (last_index k ps (S n)); [done|].
    rewrite (indexProduction_Ok _ _ _ _ Hp).
    destruct (record_key p) as [k'|]; case_decide; simplify_eq.
    + by rewrite lookup_insert_eq.
    + rewrite lookup_insert_ne; [done|congruence].
    + done.
Qed.

Lemma buildIndex_lookup ps idx k :
  buildIndex ps = Ok idx → idx !! k = last_index k ps 0.
Proof.
  intros Hidx. rewrite (buildIndex_from_lookup _ _ _ _ Hidx k).
  by destruct (last_index k ps 0).
Qed.

Lemma buildIndex_from_total ps : ∀ n m,
  Forall (λ p, p ≠ JNull) ps → ∃ idx, buildIndex_from n ps m = Ok idx.
Proof.
  induction ps as [|p ps IH]; simpl; intros n m Hps; [eauto|].
  inversion Hps as [|? ? Hp Hps']; subst.
  destruct (indexProduction_total m p n Hp) as [m' ->]. simpl. by apply IH.
Qed.

Lemma buildIndex_from_not_null ps : ∀ n m idx,
  buildIndex_from n ps m = Ok idx → Forall (λ p, p ≠ JNull) ps.
Proof.
  induction ps as [|p ps IH]; simpl; intros n m idx Hidx; [done|].
  destruct (indexProduction m p n) as [m'|] eqn:Hp; [|done]. simpl in Hidx.
  constructor; [|by eapply IH]. by intros ->.
Qed.

Lemma last_index_None k ps : ∀ n,
  last_index k ps n = None → ∀ p, p ∈ ps → record_key p ≠ Some k.
Proof.
  induction ps as [|p ps IH]; simpl; intros n Hnone q Hq.
  - by apply elem_of_nil in Hq.
  - destruct (last_index k ps (S n)) eqn:Hrest; [done|].
    case_decide as Hp; [done|].
    apply elem_of_cons in Hq as [->|Hq]; [done|]. by eapply IH.
Qed.

Lemma last_index_Some k ps : ∀ n i,
  last_index k ps n = Some i →
  ∃ p, n ≤ i ∧ ps !! (i - n) = Some p ∧ record_key p = Some k
       ∧ ∀ j q, i - n < j → ps !! j = Some q → record_key q ≠ Some k.
Proof.
  induction ps as [|p ps IH]; simpl; intros n i Hi; [done|].
  destruct (last_index k ps (S n)) as [i'|] eqn:Hrest.
  - injection Hi as ->. destruct (IH _ _ Hrest) as (q & Hle & Hq & Hk & Hlast).
    exists q. replace (i - n) with (S (i - S n)) by lia.
    split_and!; [lia|done|done|].
    intros [|j] q' Hj Hq'; [lia|]. simpl in Hq'. eapply Hlast; [|done]. lia.
  - case_decide as Hp; [|done]. injection Hi as <-.
    exists p. rewrite Nat.sub_diag. split_and!; [lia|done|done|].
    intros [|j] q Hj Hq; [lia|]. simpl in Hq.
    eapply last_index_None; [done|]. by eapply list_elem_of_lookup_2.
Qed.

Lemma last_index_lt k ps n i :
  last_index k ps n = Some i → i < n + length ps.
Proof.
  intros (p & Hle & Hp & _)%last_index_Some.
  apply lookup_lt_Some in Hp. lia.
Qed.

(** A candidate is merged into the last production that has its [id]. *)
Lemma matches_last_index ps idx c i :
  buildIndex ps = Ok idx → matches idx c i →
  ∃ k, candidate_id c ≫= map_key = Some k ∧ last_index k ps 0 = Some i.
Proof.
  intros Hidx (id & Hid & Hget). unfold Map_get in Hget.
  destruct (map_key id) as [k|] eqn:Hk; [|done].
  exists k. rewrite Hid. simpl. split; [done|].
  by rewrite <- (buildIndex_lookup _ _ _ Hidx).
Qed.

(** *** Induction over the loop *)

Lemma forEach_app idx cs1 cs2 st :
  forEach idx (cs1 ++ cs2) st
    = bind (forEach idx cs1 st) (forEach idx cs2).
Proof.
  revert st. induction cs1 as [|c cs1 IH]; intros st; simpl; [done|].
  destruct (processCandidate idx st c); simpl; [apply IH|done].
Qed.

Lemma forEach_ind idx (P : list json → state → Prop) cs st0 st :
  P [] st0 →
  (∀ processed c st st',
      P processed st → processCandidate idx st c = Ok st' →
      P (processed ++ [c]) st') →
  forEach idx cs st0 = Ok st → P cs st.
Proof.
  intros Hinit Hstep.
  assert (∀ rest processed st1, P processed st1 →
            forEach idx rest st1 = Ok st → P (processed ++ rest) st) as Hgen.
  { induction rest as [|c rest IH]; simpl; intros processed st1 HP Hrun.
    - injection Hrun as <-. by rewrite app_nil_r.
    - destruct (processCandidate idx st1 c) as [st2|] eqn:Hc; [|done].
      simpl in Hrun. rewrite cons_middle, app_assoc. eapply IH; [|done].
      by eapply Hstep. }
  intros Hrun. by apply (Hgen cs [] st0).
Qed.

(** The loop body on a candidate with a known [id] does not throw when
    the production is there and its themes, if any, are an array. *)
Lemma processCandidate_match idx st c id i existing :
  candidate_id c = Some id → Map_get idx (Some id) = Some i →
  productions st !! i = Some existing → existing ≠ JNull →
  is_array (kept_themes existing) = true →
  ∃ themes_equal : bool,
    let merged := mergeRecord existing c (kept_themes existing) in
    processCandidate idx st c
      = Ok (State
              (if hasChanges existing merged
               then <[i := merged]> (productions st) else productions st)
              (createdCount st)
              (if hasChanges existing merged
               then updatedCount st + 1 else updatedCount st)
              (themesUnchangedCount st + 1)
              (if themes_equal
               then themeMismatchCount st else themeMismatchCount st + 1)).
Proof.
  intros (props & -> & Hid & Hty)%candidate_id_guards Hget Hex Hnull Harr.
  destruct (kept_themes existing) as [| | | |items|] eqn:Hkept; try done.
  destruct (areArraysEqual_array false items (kept_themes (JObj props)))
    as [themes_equal Heq].
  { simpl. intros Hnull'.
    pose proof (truthy_or_empty (lookup_prop "themes" props)) as Ht.
    by rewrite Hnull' in Ht. }
  exists themes_equal.
  unfold processCandidate. simpl. rewrite Hid. simpl. rewrite Hty. simpl.
  rewrite Hget. unfold get_element. rewrite Hex. simpl.
  destruct (get_prop existing "themes") as [o|] eqn:Ho; [|by destruct existing].
  simpl. rewrite (get_prop_kept_themes _ _ Ho), Hkept.
  simpl in Heq. rewrite Heq. simpl.
  rewrite lookup_CreateDataProperty_eq. simpl.
  rewrite areArraysEqual_same by done. simpl.
  by destruct (hasChanges existing _).
Qed.

End StepFacts.

(** ** The merge *)

Module MergeFacts.
Import ObjectFacts StepFacts.

#[local] Arguments Map_get : simpl never.
#[local] Arguments areArraysEqual : simpl never.
#[local] Arguments mergeRecord : simpl never.
#[local] Arguments hasChanges : simpl never.

Lemma merge_inv cs ps st :
  merge cs ps = Ok st →
  ∃ idx, buildIndex ps = Ok idx ∧ forEach idx cs (State ps 0 0 0 0) = Ok st.
Proof.
  unfold merge. destruct (buildIndex ps) as [idx|]; [|done]. simpl. eauto.
Qed.

Lemma has_themes_mergeRecord existing c t : has_themes (mergeRecord existing c t) t.
Proof. eexists. split; [done|]. apply lookup_CreateDataProperty_eq. Qed.

Lemma has_themes_kept r t :
  has_themes r t → truthy t = true → kept_themes r = t.
Proof. intros (props & -> & Ht) Hty. simpl. rewrite Ht. by apply or_empty_truthy. Qed.

Lemma truthy_kept_themes e : truthy (kept_themes e) = true.
Proof. destruct e; try done. apply truthy_or_empty. Qed.

(** The merged record is stored under the [id] of the candidate. *)
Lemma record_key_mergeRecord existing c t id :
  candidate_id c = Some id →
  record_key (mergeRecord existing c t) = map_key id.
Proof.
  intros (props & -> & Hid & Hty)%candidate_id_guards.
  unfold record_key, mergeRecord. simpl.
  rewrite lookup_CreateDataProperty_ne by done.
  rewrite lookup_CopyDataProperties, Hid, Hty. done.
Qed.

(** Every production keeps, once a candidate was merged into it, the
    themes it had at the start. *)
Lemma forEach_themes idx ps cs st :
  forEach idx cs (State ps 0 0 0 0) = Ok st →
  ∀ i e, ps !! i = Some e →
    ∃ r, productions st !! i = Some r
         ∧ (r = e ∨ has_themes r (kept_themes e))
         ∧ (∀ c, c ∈ cs → matches idx c i → has_themes r (kept_themes e)).
Proof.
  apply (forEach_ind idx (λ processed st,
    ∀ i e, ps !! i = Some e →
      ∃ r, productions st !! i = Some r
           ∧ (r = e ∨ has_themes r (kept_themes e))
           ∧ (∀ c, c ∈ processed → matches idx c i →
                has_themes r (kept_themes e)))).
  - intros i e Hi. exists e. split_and!; [done|by left|].
    intros c Hc. by apply elem_of_nil in Hc.
  - intros processed c st0 st1 IH Hstep i e Hi.
    destruct (IH i e Hi) as (r & Hr & Hkeep & Hmerged).
    destruct (candidate_id c) as [id|] eqn:Hid.
    2:{ rewrite processCandidate_skip in Hstep by done. injection Hstep as <-.
        exists r. split_and!; [done..|].
        intros c' [Hc'| ->%list_elem_of_singleton]%elem_of_app Hm; [by eapply Hmerged|].
        destruct Hm as (? & ? & _). congruence. }
    destruct (Map_get idx (Some id)) as [j|] eqn:Hget.
    2:{ rewrite (processCandidate_create _ _ _ _ Hid Hget) in Hstep.
        injection Hstep as <-. simpl.
        exists r. split_and!; [by apply lookup_app_l_Some|done|].
        intros c' [Hc'| ->%list_elem_of_singleton]%elem_of_app Hm; [by eapply Hmerged|].
        destruct Hm as (? & ? & ?). congruence. }
    destruct (processCandidate_match_inv _ _ _ _ _ _ Hid Hget Hstep)
      as (existing & themes_equal & Hex & Hnull & Harr & Heq & ->). simpl.
    destruct (decide (j = i)) as [->|Hne].
    + assert (existing = r) as -> by congruence.
      assert (kept_themes r = kept_themes e) as Hsame.
      { destruct Hkeep as [->|Hkeep]; [done|].
        apply has_themes_kept; [done|apply truthy_kept_themes]. }
      clear Hstep. destruct (hasChanges r _) eqn:Hch; rewrite Hsame in *.
      * eexists. split; [apply list_lookup_insert_eq; by eapply lookup_lt_Some|].
        split; [right|intros _ _ _]; apply has_themes_mergeRecord.
      * apply hasChanges_false in Hch. exists r. split; [done|].
        assert (has_themes r (kept_themes e)) as Hthemes
          by (rewrite Hch at 1; apply has_themes_mergeRecord).
        split; [by right|done].
    + exists r. split.
      { destruct (hasChanges existing _); [|done].
        by rewrite list_lookup_insert_ne. }
      split; [done|].
      intros c' [Hc'| ->%list_elem_of_singleton]%elem_of_app Hm; [by eapply Hmerged|].
      destruct Hm as (id' & Hid' & Hget'). congruence.
Qed.

Lemma creates_is_new ps idx c :
  buildIndex ps = Ok idx → creates idx c = is_new ps c.
Proof.
  intros Hidx. unfold creates, is_new, Map_get.
  destruct (candidate_id c) as [id|]; [|done].
  destruct (map_key id) as [k|]; [|done].
  rewrite (buildIndex_lookup _ _ _ Hidx).
  destruct (last_index k ps 0) as [i|] eqn:Hlast.
  - symmetry. apply bool_decide_eq_false. intros Hall.
    destruct (last_index_Some _ _ _ _ Hlast) as (p & _ & Hp & Hk & _).
    rewrite Forall_forall in Hall. eapply Hall; [|done].
    by eapply list_elem_of_lookup_2.
  - symmetry. apply bool_decide_eq_true. apply Forall_forall.
    by eapply last_index_None.
Qed.

Lemma matches_merges idx c i : matches idx c i → merges idx c = true.
Proof. intros (id & Hid & Hget). unfold merges. by rewrite Hid, Hget. Qed.

(** The shape of the array during the loop: the productions in their
    places, then the appended candidates; and what the counters count. *)
Lemma forEach_shape idx ps cs st :
  buildIndex ps = Ok idx →
  forEach idx cs (State ps 0 0 0 0) = Ok st →
  ∃ body,
    productions st = body ++ filter (λ c, creates idx c) cs
    ∧ length body = length ps
    ∧ Forall2 same_slot ps body
    ∧ createdCount st = length (filter (λ c, creates idx c) cs)
    ∧ themesUnchangedCount st = length (filter (λ c, merges idx c) cs).
Proof.
  intros Hidx.
  apply (forEach_ind idx (λ processed st,
    ∃ body,
      productions st = body ++ filter (λ c, creates idx c) processed
      ∧ length body = length ps
      ∧ Forall2 same_slot ps body
      ∧ createdCount st = length (filter (λ c, creates idx c) processed)
      ∧ themesUnchangedCount st = length (filter (λ c, merges idx c) processed))).
  - exists ps. split_and!; try done.
    + by rewrite app_nil_r.
    + apply Forall2_same_length_lookup_2; [done|].
      intros i x y Hx Hy. left. congruence.
  - intros processed c st0 st1 (body & Hbody & Hlen & Hslots & Hcreated & Hkept) Hstep.
    rewrite !filter_app, !filter_cons, !filter_nil.
    destruct (candidate_id c) as [id|] eqn:Hid.
    2:{ rewrite processCandidate_skip in Hstep by done. injection Hstep as <-.
        assert (creates idx c = false) as -> by (unfold creates; by rewrite Hid).
        assert (merges idx c = false) as -> by (unfold merges; by rewrite Hid).
        exists body. rewrite decide_False by (intros []). by rewrite !app_nil_r. }
    destruct (Map_get idx (Some id)) as [j|] eqn:Hget.
    2:{ rewrite (processCandidate_create _ _ _ _ Hid Hget) in Hstep.
        injection Hstep as <-. simpl.
        assert (creates idx c = true) as ->
          by (unfold creates; by rewrite Hid, Hget).
        assert (merges idx c = false) as ->
          by (unfold merges; by rewrite Hid, Hget).
        exists body. rewrite decide_True by exact I.
        rewrite decide_False by (intros []).
        rewrite Hbody, app_assoc, app_nil_r, !length_app. simpl.
        split_and!; try done; lia. }
    destruct (processCandidate_match_inv _ _ _ _ _ _ Hid Hget Hstep)
      as (existing & themes_equal & Hex & Hnull & Harr & Heq & ->). simpl.
    assert (creates idx c = false) as ->
      by (unfold creates; by rewrite Hid, Hget).
    assert (merges idx c = true) as ->
      by (unfold merges; by rewrite Hid, Hget).
    rewrite decide_False by (intros []). rewrite decide_True by exact I.
    rewrite app_nil_r, length_app. simpl.
    destruct (matches_last_index ps idx c j Hidx) as (k & Hk & Hlast);
      [by exists id|].
    destruct (last_index_Some _ _ _ _ Hlast) as (p & _ & Hp & Hpk & _).
    rewrite Nat.sub_0_r in Hp.
    assert (j < length body) as Hj by (rewrite Hlen; by eapply lookup_lt_Some).
    destruct (hasChanges existing _).
    + exists (<[j := mergeRecord existing c (kept_themes existing)]> body).
      rewrite Hbody, insert_app_l, length_insert by done.
      split_and!; try done; [|lia].
      rewrite <- (list_insert_id ps j p) by done.
      apply Forall2_insert; [done|]. right. exists k. split; [done|].
      rewrite (record_key_mergeRecord _ _ _ id) by done.
      rewrite Hid in Hk. done.
    + exists body. split_and!; try done. lia.
Qed.

(** *** Merging twice *)

Lemma js_object_mergeRecord existing c t :
  ∃ props, mergeRecord existing c t = JObj props ∧ js_object props.
Proof.
  eexists. split; [done|].
  apply js_object_CreateDataProperty, js_object_CopyDataProperties,
    js_object_CopyDataProperties, js_object_nil.
Qed.

(** Merging a candidate into the record it was merged into changes
    nothing. *)
Lemma mergeRecord_idem existing c t :
  mergeRecord (mergeRecord existing c t) c t = mergeRecord existing c t.
Proof.
  destruct (js_object_mergeRecord existing c t) as (m1 & Hm1 & Hobj).
  rewrite Hm1. unfold mergeRecord at 1. f_equal. simpl.
  rewrite (CopyDataProperties_nil m1 Hobj).
  assert (∀ name, lookup_prop name m1
            = if String.eqb "themes" name then Some t
              else match lookup_prop name (own_props c) with
                   | Some v => Some v
                   | None => lookup_prop name
                               (CopyDataProperties [] (own_props existing))
                   end) as Hm1_lookup.
  { intros name. unfold mergeRecord in Hm1. injection Hm1 as <-.
    by rewrite lookup_CreateDataProperty, lookup_CopyDataProperties. }
  assert ((CopyDataProperties m1 (own_props c)).*1 = m1.*1) as Hkeys.
  { apply CopyDataProperties_keys. intros name Hname. rewrite Hm1_lookup.
    destruct (String.eqb "themes" name); [done|].
    apply lookup_prop_is_Some in Hname.
    by destruct (lookup_prop name (own_props c)). }
  assert ((CreateDataProperty (CopyDataProperties m1 (own_props c)) "themes" t).*1
            = m1.*1) as Hkeys'.
  { rewrite CreateDataProperty_keys; [done|].
    rewrite lookup_CopyDataProperties, Hm1_lookup. simpl.
    by destruct (lookup_prop "themes" (own_props c)). }
  apply props_ext; [rewrite Hkeys'; apply Hobj | done |].
  intros name. rewrite lookup_CreateDataProperty, lookup_CopyDataProperties.
  rewrite (Hm1_lookup name).
  destruct (String.eqb "themes" name); [done|].
  by destruct (lookup_prop name (own_props c)).
Qed.

(** Merging a complete record into itself changes nothing. *)
Lemma mergeRecord_self c :
  complete_record c → mergeRecord c c (kept_themes c) = c.
Proof.
  intros (props & items & -> & Hobj & Hthemes).
  unfold mergeRecord. simpl. rewrite Hthemes. simpl. f_equal.
  rewrite (CopyDataProperties_nil props Hobj).
  assert ((CopyDataProperties props props).*1 = props.*1) as Hkeys.
  { apply CopyDataProperties_keys. intros name. apply lookup_prop_is_Some. }
  apply props_ext.
  - rewrite CreateDataProperty_keys, Hkeys; [apply Hobj|].
    rewrite lookup_CopyDataProperties. by rewrite Hthemes.
  - rewrite CreateDataProperty_keys; [done|].
    rewrite lookup_CopyDataProperties. by rewrite Hthemes.
  - intros name. rewrite lookup_CreateDataProperty, lookup_CopyDataProperties.
    destruct (String.eqb "themes" name) eqn:Hname.
    + apply eqb_string_true in Hname as <-. by rewrite Hthemes.
    + by destruct (lookup_prop name props).
Qed.

(** Among candidates with distinct keys, a key names one candidate. *)
Lemma candidate_key_unique cs c c' k :
  NoDup (omap candidate_key cs) →
  c ∈ cs → c' ∈ cs → candidate_key c = Some k → candidate_key c' = Some k →
  c = c'.
Proof.
  induction cs as [|x cs IH]; intros Hnodup Hc Hc' Hk Hk'.
  - by apply elem_of_nil in Hc.
  - simpl in Hnodup.
    assert (∀ y, y ∈ cs → candidate_key y = Some k → k ∈ omap candidate_key cs)
      as Hin by (intros y Hy Hyk; apply list_elem_of_omap; eauto).
    apply elem_of_cons in Hc as [->|Hc]; apply elem_of_cons in Hc' as [->|Hc'];
      try done.
    + rewrite Hk in Hnodup. apply NoDup_cons in Hnodup as [Hnot _].
      destruct Hnot. by eapply Hin.
    + rewrite Hk' in Hnodup. apply NoDup_cons in Hnodup as [Hnot _].
      destruct Hnot. by eapply Hin.
    + apply IH; try done. destruct (candidate_key x); [|done].
      by apply NoDup_cons in Hnodup as [_ ?].
Qed.

Lemma matches_key ps idx c i :
  buildIndex ps = Ok idx → matches idx c i →
  ∃ k p, candidate_key c = Some k ∧ idx !! k = Some i
         ∧ ps !! i = Some p ∧ record_key p = Some k.
Proof.
  intros Hidx Hm.
  destruct (matches_last_index ps idx c i Hidx Hm) as (k & Hk & Hlast).
  destruct (last_index_Some _ _ _ _ Hlast) as (p & _ & Hp & Hpk & _).
  rewrite Nat.sub_0_r in Hp. exists k, p. split_and!; try done.
  by rewrite (buildIndex_lookup _ _ _ Hidx).
Qed.

(** With distinct keys every production is merged with one candidate at
    most, and then holds the merged record. *)
Lemma forEach_merged idx ps cs st :
  buildIndex ps = Ok idx →
  NoDup (omap candidate_key cs) →
  forEach idx cs (State ps 0 0 0 0) = Ok st →
  ∀ i e, ps !! i = Some e →
    (productions st !! i = Some e ∧ ∀ c, c ∈ cs → ¬ matches idx c i)
    ∨ (∃ c, c ∈ cs ∧ matches idx c i
            ∧ productions st !! i = Some (mergeRecord e c (kept_themes e))
            ∧ is_array (kept_themes e) = true).
Proof.
  intros Hidx Hnodup Hrun. revert Hnodup.
  apply (forEach_ind idx (λ processed st,
    NoDup (omap candidate_key processed) →
    ∀ i e, ps !! i = Some e →
      (productions st !! i = Some e ∧ ∀ c, c ∈ processed → ¬ matches idx c i)
      ∨ (∃ c, c ∈ processed ∧ matches idx c i
              ∧ productions st !! i = Some (mergeRecord e c (kept_themes e))
              ∧ is_array (kept_themes e) = true)) cs (State ps 0 0 0 0) st);
    [| |exact Hrun].
  - intros _ i e Hi. left. split; [done|]. intros c Hc. by apply elem_of_nil in Hc.
  - intros processed c st0 st1 IH Hstep Hnodup i e Hi.
    rewrite omap_app in Hnodup. apply NoDup_app in Hnodup as (Hnodup & Hfresh & _).
    specialize (IH Hnodup i e Hi).
    assert (∀ c', c' ∈ processed → matches idx c' i → ¬ matches idx c i) as Hother.
    { intros c' Hc' Hm' Hm.
      destruct (matches_key _ _ _ _ Hidx Hm') as (k' & p' & Hk' & _ & Hp' & Hpk').
      destruct (matches_key _ _ _ _ Hidx Hm) as (k & p & Hk & _ & Hp & Hpk).
      assert (k' = k) as -> by congruence.
      apply (Hfresh k).
      - apply list_elem_of_omap. eauto.
      - simpl. rewrite Hk. left. }
    assert (productions st1 !! i = productions st0 !! i → ¬ matches idx c i →
      (productions st1 !! i = Some e
       ∧ ∀ c', c' ∈ processed ++ [c] → ¬ matches idx c' i)
      ∨ (∃ c', c' ∈ processed ++ [c] ∧ matches idx c' i
               ∧ productions st1 !! i = Some (mergeRecord e c' (kept_themes e))
               ∧ is_array (kept_themes e) = true)) as Hkeep.
    { intros -> Hnot. destruct IH as [[Hr Hnone]|(c' & Hc' & Hm' & Hr & Harr)].
      - left. split; [done|].
        intros c' [Hc'| ->%list_elem_of_singleton]%elem_of_app; [by apply Hnone|done].
      - right. exists c'. split_and!; try done. apply elem_of_app. by left. }
    destruct (candidate_id c) as [id|] eqn:Hid.
    2:{ rewrite processCandidate_skip in Hstep by done. injection Hstep as <-.
        apply Hkeep; [done|]. intros (? & ? & _). congruence. }
    destruct (Map_get idx (Some id)) as [j|] eqn:Hget.
    2:{ rewrite (processCandidate_create _ _ _ _ Hid Hget) in Hstep.
        injection Hstep as <-. simpl. apply Hkeep.
        - simpl. destruct IH as [[Hr _]|(? & _ & _ & Hr & _)];
            by rewrite (lookup_app_l_Some _ _ _ _ Hr).
        - intros (? & ? & ?). congruence. }
    destruct (processCandidate_match_inv _ _ _ _ _ _ Hid Hget Hstep)
      as (existing & themes_equal & Hex & _ & Harr & _ & ->). simpl.
    destruct (decide (j = i)) as [->|Hne].
    + assert (matches idx c i) as Hm by by exists id.
      destruct IH as [[Hr Hnone]|(c' & Hc' & Hm' & _)];
        [|by destruct (Hother c' Hc' Hm')].
      assert (existing = e) as -> by congruence.
      right. exists c. split_and!; [apply elem_of_app; right; left|done| |done].
      destruct (hasChanges e _) eqn:Hch.
      * apply list_lookup_insert_eq. by eapply lookup_lt_Some.
      * apply hasChanges_false in Hch. by rewrite <- Hch.
    + apply Hkeep.
      * simpl. destruct (hasChanges existing _); [|done].
        by rewrite list_lookup_insert_ne.
      * intros (id' & Hid' & Hget'). congruence.
Qed.

Lemma merges_joins ps idx c :
  buildIndex ps = Ok idx → merges idx c = joins ps c.
Proof.
  intros Hidx. unfold joins. rewrite <- (creates_is_new ps idx c Hidx).
  unfold merges, creates. destruct (candidate_id c) as [id|]; [|done].
  by destruct (Map_get idx (Some id)).
Qed.

Lemma last_index_app k l1 : ∀ l2 n,
  last_index k (l1 ++ l2) n
    = match last_index k l2 (n + length l1) with
      | Some i => Some i
      | None => last_index k l1 n
      end.
Proof.
  induction l1 as [|p l1 IH]; intros l2 n; simpl.
  - rewrite Nat.add_0_r. by destruct (last_index k l2 n).
  - rewrite IH. replace (S n + length l1) with (n + S (length l1)) by lia.
    by destruct (last_index k l2 (n + S (length l1))).
Qed.

Lemma last_index_keys k l l' :
  Forall2 (λ a b, record_key a = record_key b) l l' →
  ∀ n, last_index k l n = last_index k l' n.
Proof.
  induction 1 as [|a b l l' Hab _ IH]; intros n; simpl; [done|].
  by rewrite IH, Hab.
Qed.

Lemma last_index_absent k l n :
  Forall (λ p, record_key p ≠ Some k) l → last_index k l n = None.
Proof.
  intros Hall. destruct (last_index k l n) as [i|] eqn:Hlast; [|done].
  destruct (last_index_Some _ _ _ _ Hlast) as (p & _ & Hp & Hk & _).
  rewrite Forall_forall in Hall. destruct (Hall p); [|done].
  by eapply list_elem_of_lookup_2.
Qed.

Lemma last_index_present k l n p :
  p ∈ l → record_key p = Some k → is_Some (last_index k l n).
Proof.
  intros Hp Hk. destruct (last_index k l n) eqn:Hlast; [done|].
  by destruct (last_index_None _ _ _ Hlast p Hp).
Qed.

Lemma same_slot_key p b : same_slot p b → record_key p = record_key b.
Proof. intros [->|(k & -> & ->)]; done. Qed.

Lemma record_key_not_null p k : record_key p = Some k → p ≠ JNull.
Proof. by intros Hk ->. Qed.

(** After the merge every candidate with a key finds, under its key, a
    record that the merge with the candidate leaves as it is. *)
Lemma merge_settles cs ps st1 :
  merge cs ps = Ok st1 →
  NoDup (omap candidate_key cs) →
  Forall (λ c, is_new ps c → complete_record c) cs →
  ∃ idx2,
    buildIndex (productions st1) = Ok idx2
    ∧ ∀ c k, c ∈ cs → candidate_key c = Some k →
        ∃ i r, idx2 !! k = Some i ∧ productions st1 !! i = Some r
               ∧ r ≠ JNull ∧ is_array (kept_themes r) = true
               ∧ mergeRecord r c (kept_themes r) = r.
Proof.
  intros (idx & Hidx & Hrun)%merge_inv Hnodup Hcomplete.
  destruct (forEach_shape _ _ _ _ Hidx Hrun)
    as (body & Hout & Hlen & Hslots & _ & _).
  set (pushed := filter (λ c, creates idx c) cs) in *.
  assert (Forall (λ p, p ≠ JNull) ps) as Hps
    by by eapply buildIndex_from_not_null.
  assert (∀ q, q ∈ pushed → q ∈ cs ∧ creates idx q = true) as Hpushed.
  { intros q [Hq Hin]%list_elem_of_filter. split; [done|].
    by apply Is_true_true. }
  assert (Forall (λ p, p ≠ JNull) (productions st1)) as Hnotnull.
  { rewrite Hout. apply Forall_app. split.
    - apply Forall_forall. intros b [j Hb]%list_elem_of_lookup.
      destruct (Forall2_lookup_r _ _ _ _ _ Hslots Hb) as (p & Hp & Hslot).
      destruct Hslot as [->|(k & _ & Hk)].
      + rewrite Forall_forall in Hps. apply Hps. by eapply list_elem_of_lookup_2.
      + by eapply record_key_not_null.
    - apply Forall_forall. intros q [_ Hq]%Hpushed.
      unfold creates in Hq. by intros ->. }
  destruct (buildIndex_from_total _ 0 ∅ Hnotnull) as [idx2 Hidx2].
  exists idx2. split; [done|].
  intros c k Hc Hk.
  assert (idx2 !! k
            = match last_index k pushed (length body) with
              | Some i => Some i
              | None => idx !! k
              end) as Hlookup2.
  { rewrite (buildIndex_lookup _ _ _ Hidx2), Hout, last_index_app. simpl.
    destruct (last_index k pushed (length body)); [done|].
    rewrite (buildIndex_lookup _ _ _ Hidx). symmetry.
    apply last_index_keys.
    eapply Forall2_impl; [exact Hslots|]. apply same_slot_key. }
  assert (∃ id, candidate_id c = Some id ∧ map_key id = Some k) as (id & Hid & Hidk).
  { unfold candidate_key in Hk. destruct (candidate_id c) as [id|]; [|done]. eauto. }
  destruct (idx !! k) as [i|] eqn:Hik.
  - (* the candidate was merged into production [i] *)
    assert (matches idx c i) as Hm.
    { exists id. split; [done|]. unfold Map_get. by rewrite Hidk. }
    destruct (matches_key _ _ _ _ Hidx Hm) as (k0 & e & Hk0 & _ & He & Hek).
    assert (k0 = k) as -> by congruence.
    destruct (forEach_merged _ _ _ _ Hidx Hnodup Hrun i e He)
      as [[_ Hnone]|(c' & Hc' & Hm' & Hr & Harr)]; [by destruct (Hnone c Hc)|].
    assert (c' = c) as ->.
    { destruct (matches_key _ _ _ _ Hidx Hm') as (k' & e' & Hk' & _ & He' & Hek').
      apply (candidate_key_unique cs c' c k); try done. congruence. }
    assert (kept_themes (mergeRecord e c (kept_themes e)) = kept_themes e) as Hkept.
    { apply has_themes_kept; [apply has_themes_mergeRecord|apply truthy_kept_themes]. }
    exists i, (mergeRecord e c (kept_themes e)).
    split_and!; try done.
    + rewrite Hlookup2. rewrite last_index_absent; [done|].
      apply Forall_forall. intros q [_ Hq]%Hpushed Hqk.
      unfold creates in Hq. unfold record_key in Hqk.
      destruct (candidate_id q) as [idq|]; [|done]. simpl in Hqk.
      unfold Map_get in Hq. rewrite Hqk, Hik in Hq. done.
    + by rewrite Hkept.
    + rewrite Hkept. apply mergeRecord_idem.
  - (* the candidate was appended *)
    assert (creates idx c = true) as Hcreates.
    { unfold creates, Map_get. by rewrite Hid, Hidk, Hik. }
    assert (c ∈ pushed) as Hcp.
    { apply list_elem_of_filter. split; [by apply Is_true_true|done]. }
    assert (complete_record c) as Hrecord.
    { rewrite Forall_forall in Hcomplete. apply (Hcomplete c Hc).
      rewrite <- (creates_is_new ps idx c Hidx). by apply Is_true_true. }
    destruct (last_index_present k pushed (length body) c Hcp Hk) as [i Hlast].
    destruct (last_index_Some _ _ _ _ Hlast) as (q & Hle & Hq & Hqk & _).
    assert (q = c) as ->.
    { apply (candidate_key_unique cs q c k); try done.
      apply Hpushed. by eapply list_elem_of_lookup_2. }
    exists i, c. split_and!.
    + by rewrite Hlookup2, Hlast.
    + rewrite Hout, lookup_app_r by done. done.
    + by destruct Hrecord as (props & items & -> & _).
    + destruct Hrecord as (props & items & -> & _ & Hthemes). simpl.
      by rewrite Hthemes.
    + by apply mergeRecord_self.
Qed.

(** A run of the loop over candidates that are all settled updates
    nothing. *)
Lemma forEach_settled idx out cs :
  (∀ c k, c ∈ cs → candidate_key c = Some k →
     ∃ i r, idx !! k = Some i ∧ out !! i = Some r
            ∧ r ≠ JNull ∧ is_array (kept_themes r) = true
            ∧ mergeRecord r c (kept_themes r) = r) →
  ∀ st, (∃ appended, productions st = out ++ appended) →
    ∃ st',
      forEach idx cs st = Ok st'
      ∧ updatedCount st' = updatedCount st
      ∧ themesUnchangedCount st'
        = themesUnchangedCount st + length (filter (λ c, merges idx c) cs)
      ∧ ∃ appended, productions st' = out ++ appended.
Proof.
  induction cs as [|c cs IH]; intros Hsettled st Hst.
  - exists st. simpl. split_and!; try done; lia.
  - assert (∀ c' k, c' ∈ cs → candidate_key c' = Some k →
       ∃ i r, idx !! k = Some i ∧ out !! i = Some r
              ∧ r ≠ JNull ∧ is_array (kept_themes r) = true
              ∧ mergeRecord r c' (kept_themes r) = r) as Hrest
      by (intros c' k Hc'; apply Hsettled; by right).
    assert (∃ st1,
      processCandidate idx st c = Ok st1
      ∧ updatedCount st1 = updatedCount st
      ∧ themesUnchangedCount st1
        = themesUnchangedCount st + (if merges idx c then 1 else 0)
      ∧ ∃ appended, productions st1 = out ++ appended) as (st1 & Hstep & Hu & Ht & Hp).
    { destruct (candidate_id c) as [id|] eqn:Hid.
      2:{ exists st. rewrite processCandidate_skip by done.
          unfold merges. rewrite Hid. split_and!; try done; lia. }
      destruct (map_key id) as [k|] eqn:Hidk.
      - destruct (Hsettled c k) as (i & r & Hi & Hr & Hnull & Harr & Hsame);
          [left|by unfold candidate_key; rewrite Hid|].
        assert (Map_get idx (Some id) = Some i) as Hget
          by (unfold Map_get; by rewrite Hidk).
        destruct Hst as [appended Hst].
        destruct (processCandidate_match idx st c id i r) as [eq Hstep]; try done.
        { rewrite Hst. by apply lookup_app_l_Some. }
        cbv zeta in Hstep. rewrite Hsame in Hstep.
        assert (hasChanges r r = false) as Hch by by apply hasChanges_false.
        rewrite Hch in Hstep.
        eexists. split; [exact Hstep|]. simpl.
        unfold merges. rewrite Hid, Hget. split_and!; try done. eauto.
      - assert (Map_get idx (Some id) = None) as Hget
          by (unfold Map_get; by rewrite Hidk).
        eexists. split; [by apply (processCandidate_create idx st c id)|]. simpl.
        unfold merges. rewrite Hid, Hget. split_and!; try done; try lia.
        destruct Hst as [appended ->]. exists (appended ++ [c]).
        by rewrite app_assoc. }
    destruct (IH Hrest st1 Hp) as (st' & Hrun & Hu' & Ht' & Hp').
    exists st'. simpl. rewrite Hstep. simpl. split_and!; try done.
    + congruence.
    + rewrite filter_cons, Ht', Ht.
      destruct (merges idx c); simpl; lia.
Qed.

(** *** The merge succeeds on well-formed productions *)

Lemma forEach_total idx n cs : ∀ st,
  (∀ id i, Map_get idx (Some id) = Some i → i < n) →
  (∀ i, i < n →
     ∃ r, productions st !! i = Some r
          ∧ r ≠ JNull ∧ is_array (kept_themes r) = true) →
  ∃ st', forEach idx cs st = Ok st'.
Proof.
  induction cs as [|c cs IH]; intros st Hbound Hwf; simpl; [eauto|].
  assert (∃ st1, processCandidate idx st c = Ok st1
            ∧ ∀ i, i < n →
                ∃ r, productions st1 !! i = Some r
                     ∧ r ≠ JNull ∧ is_array (kept_themes r) = true)
    as (st1 & -> & Hwf1); [|by apply IH].
  destruct (candidate_id c) as [id|] eqn:Hid.
  2:{ exists st. by rewrite processCandidate_skip. }
  destruct (Map_get idx (Some id)) as [j|] eqn:Hget.
  2:{ eexists. split; [by apply (processCandidate_create idx st c id)|]. simpl.
      intros i Hi. destruct (Hwf i Hi) as (r & Hr & Hnull & Harr).
      exists r. by rewrite (lookup_app_l_Some _ _ _ _ Hr). }
  destruct (Hwf j (Hbound _ _ Hget)) as (r & Hr & Hnull & Harr).
  destruct (processCandidate_match idx st c id j r) as [eq Hstep]; try done.
  eexists. split; [exact Hstep|]. simpl.
  intros i Hi. destruct (hasChanges r _); [|by apply Hwf].
  destruct (decide (j = i)) as [->|Hne].
  - eexists. split; [apply list_lookup_insert_eq; by eapply lookup_lt_Some|].
    split; [done|].
    rewrite (has_themes_kept _ (kept_themes r)); [done|..].
    + apply has_themes_mergeRecord.
    + apply truthy_kept_themes.
  - rewrite list_lookup_insert_ne by done. by apply Hwf.
Qed.

(** The merge returns a result whenever no production is [null] and the
    themes of every production, if it has any, are an array. *)
Lemma merge_total cs ps :
  Forall (λ p, p ≠ JNull ∧ is_array (kept_themes p) = true) ps →
  ∃ st, merge cs ps = Ok st.
Proof.
  intros Hps. unfold merge.
  destruct (buildIndex_from_total ps 0 ∅) as [idx Hidx].
  { eapply Forall_impl; [exact Hps|]. by intros p [? _]. }
  fold (buildIndex ps) in Hidx. rewrite Hidx. simpl.
  apply (forEach_total idx (length ps)).
  - intros id i Hget. unfold Map_get in Hget.
    destruct (map_key id) as [k|]; [|done].
    rewrite (buildIndex_lookup _ _ _ Hidx) in Hget.
    by apply last_index_lt in Hget.
  - intros i Hi. simpl. destruct (lookup_lt_is_Some_2 ps i Hi) as [p Hp].
    exists p. split; [done|].
    rewrite Forall_forall in Hps. apply Hps. by eapply list_elem_of_lookup_2.
Qed.

(** *** Unique ids *)

Lemma omap_key_filter (P : json → Prop) `{!∀ c, Decision (P c)} cs :
  NoDup (omap candidate_key cs) → NoDup (omap candidate_key (filter P cs)).
Proof.
  induction cs as [|c cs IH]; simpl; [done|]. intros Hnodup.
  assert (NoDup (omap candidate_key cs)) as Hrest
    by (destruct (candidate_key c); [by apply NoDup_cons in Hnodup as [_ ?]|done]).
  rewrite filter_cons. case_decide; [|by apply IH]. simpl.
  destruct (candidate_key c) as [k|] eqn:Hk; [|by apply IH].
  apply NoDup_cons in Hnodup as [Hnot _]. apply NoDup_cons. split; [|by apply IH].
  intros (q & [_ Hq]%list_elem_of_filter & Hqk)%list_elem_of_omap.
  apply Hnot, list_elem_of_omap. eauto.
Qed.

Lemma omap_record_key_slots ps body :
  Forall2 same_slot ps body → omap record_key body = omap record_key ps.
Proof.
  induction 1 as [|p b ps body Hslot _ IH]; [done|].
  change (omap record_key (b :: body))
    with (match record_key b with
          | Some k => k :: omap record_key body
          | None => omap record_key body
          end).
  by rewrite IH, <- (same_slot_key _ _ Hslot).
Qed.

(** The merge keeps the ids unique when the candidates do not repeat an
    id among themselves. *)
Lemma merge_keeps_ids_unique cs ps st :
  merge cs ps = Ok st →
  NoDup (omap record_key ps) → NoDup (omap candidate_key cs) →
  NoDup (omap record_key (productions st)).
Proof.
  intros (idx & Hidx & Hrun)%merge_inv Hps Hcs.
  destruct (forEach_shape _ _ _ _ Hidx Hrun) as (body & -> & _ & Hslots & _ & _).
  rewrite omap_app, (omap_record_key_slots _ _ Hslots).
  apply NoDup_app. split_and!; [done| |by apply omap_key_filter].
  intros k (p & Hp & Hpk)%list_elem_of_omap
    (q & [Hq _]%list_elem_of_filter & Hqk)%list_elem_of_omap.
  apply Is_true_true in Hq. unfold creates in Hq. unfold record_key in Hqk.
  destruct (candidate_id q) as [id|]; [|done]. simpl in Hqk.
  unfold Map_get in Hq. rewrite Hqk, (buildIndex_lookup _ _ _ Hidx) in Hq.
  destruct (last_index_present k ps 0 p Hp Hpk) as [i Hi]. by rewrite Hi in Hq.
Qed.

End MergeFacts.

(** ** The properties of the merge *)

Section MergeClaims.
Import ObjectFacts StepFacts MergeFacts.

(** C7: on the example of the specification the merge keeps the themes
    of [a], takes its city from the candidate, appends [b], and counts one
    creation, one update and one theme mismatch. *)
Theorem merge_example :
  merge [candidate_a; candidate_b] [existing_a]
    = Ok (State [merged_a; candidate_b] 1 1 1 1).
Proof. vm_compute. reflexivity. Qed.

(** C1, as stated, fails: a production without [themes] comes out of the
    merge with [themes] set to the empty array, which is not what it had. *)
Lemma themes_of_bare_production_change :
  ∃ st props,
    merge [candidate_a] [bare_a] = Ok st
    ∧ productions st !! 0 = Some (JObj props)
    ∧ lookup_prop "themes" props = Some (JArr [])
    ∧ get_prop bare_a "themes" = Ok None
    ∧ get_prop (JObj props) "themes" ≠ get_prop bare_a "themes".
Proof.
  eexists _, _. split; [vm_compute; reflexivity|].
  split; [reflexivity|]. by vm_compute.
Qed.

(** C1, amended: for every candidate whose [id] is the [id] of an
    existing production, the record at the position of that [id] (the last
    production with the [id]) has, in the output of the merge, the themes
    [existing.themes || []]: those of the existing production when they are
    truthy, the empty array when the production has no themes or falsy
    ones; whatever the candidate supplies, and for every list of
    candidates, limited or not. *)
Theorem merge_keeps_existing_themes cs ps st c k :
  merge cs ps = Ok st →
  c ∈ cs → candidate_key c = Some k →
  (∃ e, e ∈ ps ∧ record_key e = Some k) →
  ∃ i existing r,
    last_index k ps 0 = Some i
    ∧ ps !! i = Some existing ∧ record_key existing = Some k
    ∧ productions st !! i = Some r
    ∧ has_themes r (kept_themes existing).
Proof.
  intros (idx & Hidx & Hrun)%merge_inv Hc Hk (e & He & Hek).
  destruct (last_index k ps 0) as [i|] eqn:Hlast.
  2:{ by destruct (last_index_None _ _ _ Hlast e He). }
  destruct (last_index_Some _ _ _ _ Hlast) as (existing & _ & Hex & Hexk & _).
  rewrite Nat.sub_0_r in Hex.
  destruct (forEach_themes _ _ _ _ Hrun i existing Hex) as (r & Hr & _ & Hmerged).
  exists i, existing, r. split_and!; try done.
  apply (Hmerged c Hc).
  unfold candidate_key in Hk.
  destruct (candidate_id c) as [id|] eqn:Hid; [|done]. simpl in Hk.
  exists id. split; [done|]. unfold Map_get. rewrite Hk.
  by rewrite (buildIndex_lookup _ _ _ Hidx).
Qed.

Lemma merge_keeps_existing_themes_witness :
  ∃ i existing r,
    last_index (KStr "a") [existing_a] 0 = Some i
    ∧ [existing_a] !! i = Some existing ∧ record_key existing = Some (KStr "a")
    ∧ productions (State [merged_a; candidate_b] 1 1 1 1) !! i = Some r
    ∧ has_themes r (kept_themes existing).
Proof.
  apply (merge_keeps_existing_themes [candidate_a; candidate_b] [existing_a]
           (State [merged_a; candidate_b] 1 1 1 1) candidate_a (KStr "a")).
  - vm_compute. reflexivity.
  - apply list_elem_of_here.
  - reflexivity.
  - exists existing_a. split; [apply list_elem_of_here | reflexivity].
Defined.

(** C2, as stated, fails: when the merged record differs and replaces the
    production, the themes-unchanged count is incremented as well. *)
Lemma themes_unchanged_counted_on_update :
  ∃ st,
    merge [candidate_a] [existing_a] = Ok st
    ∧ productions st = [merged_a] ∧ merged_a ≠ existing_a
    ∧ updatedCount st = 1 ∧ themesUnchangedCount st = 1.
Proof.
  eexists. split; [vm_compute; reflexivity|]. by vm_compute.
Qed.

(** C2, amended: for every candidate whose [id] matches an existing
    production, the loop body increments the themes-unchanged count by one
    whether or not the record changes; when the merged record differs from
    the production it replaces it and the updated count is incremented too,
    and when the merged record equals the production the array and the
    updated count are left as they are. *)
Theorem themes_unchanged_counts_every_match idx st c i st' :
  matches idx c i → processCandidate idx st c = Ok st' →
  ∃ existing,
    productions st !! i = Some existing
    ∧ let merged := mergeRecord existing c (kept_themes existing) in
      themesUnchangedCount st' = themesUnchangedCount st + 1
      ∧ (existing ≠ merged →
           productions st' = <[i := merged]> (productions st)
           ∧ updatedCount st' = updatedCount st + 1)
      ∧ (existing = merged →
           productions st' = productions st
           ∧ updatedCount st' = updatedCount st).
Proof.
  intros (id & Hid & Hget) Hstep.
  destruct (processCandidate_match_inv _ _ _ _ _ _ Hid Hget Hstep)
    as (existing & themes_equal & Hex & _ & _ & _ & ->).
  exists existing. split; [done|]. simpl. split; [done|].
  split.
  - intros Hne%hasChanges_true. by rewrite Hne.
  - intros Heq%hasChanges_false. by rewrite Heq.
Qed.

Lemma themes_unchanged_counts_every_match_witness :
  ∃ existing,
    productions (State [existing_a] 0 0 0 0) !! 0 = Some existing
    ∧ let merged := mergeRecord existing candidate_a (kept_themes existing) in
      themesUnchangedCount (State [merged_a] 0 1 1 1) = 0 + 1
      ∧ (existing ≠ merged →
           productions (State [merged_a] 0 1 1 1) = <[0 := merged]> [existing_a]
           ∧ updatedCount (State [merged_a] 0 1 1 1) = 0 + 1)
      ∧ (existing = merged →
           productions (State [merged_a] 0 1 1 1) = [existing_a]
           ∧ updatedCount (State [merged_a] 0 1 1 1) = 0).
Proof.
  apply (themes_unchanged_counts_every_match {[ KStr "a" := 0 ]}
           (State [existing_a] 0 0 0 0) candidate_a 0 (State [merged_a] 0 1 1 1)).
  - exists (JStr "a"). split; reflexivity.
  - vm_compute. reflexivity.
Defined.

(** C10: for every candidate whose [id] matches a production that has no
    [themes] or falsy ones, the merged record has the empty array as
    [themes], it replaces the production and the updated count is
    incremented; this holds for every candidate, also for one that is the
    production itself. *)
Theorem missing_themes_become_empty idx st c i props :
  matches idx c i →
  productions st !! i = Some (JObj props) →
  truthy_opt (lookup_prop "themes" props) = false →
  ∃ st',
    processCandidate idx st c = Ok st'
    ∧ let merged := mergeRecord (JObj props) c (JArr []) in
      has_themes merged (JArr [])
      ∧ productions st' = <[i := merged]> (productions st)
      ∧ updatedCount st' = updatedCount st + 1.
Proof.
  intros (id & Hid & Hget) Hex Hfalsy.
  assert (kept_themes (JObj props) = JArr []) as Hkept.
  { simpl. destruct (lookup_prop "themes" props) as [v|]; [|done].
    simpl in *. by rewrite Hfalsy. }
  destruct (processCandidate_match idx st c id i (JObj props)) as [eq Hstep];
    try done; [by rewrite Hkept|].
  rewrite Hkept in Hstep.
  assert (hasChanges (JObj props) (mergeRecord (JObj props) c (JArr [])) = true)
    as Hch.
  { apply hasChanges_true. intros Heq.
    pose proof (has_themes_mergeRecord (JObj props) c (JArr [])) as Hthemes.
    rewrite <- Heq in Hthemes. destruct Hthemes as (props' & [= <-] & Hthemes).
    by rewrite Hthemes in Hfalsy. }
  eexists. split; [exact Hstep|]. simpl. rewrite Hch.
  split_and!; try done. apply has_themes_mergeRecord.
Qed.

Lemma missing_themes_become_empty_witness :
  ∃ st',
    processCandidate {[ KStr "a" := 0 ]} (State [bare_a] 0 0 0 0) bare_a = Ok st'
    ∧ let merged := mergeRecord bare_a bare_a (JArr []) in
      has_themes merged (JArr [])
      ∧ productions st' = <[0 := merged]> [bare_a]
      ∧ updatedCount st' = 0 + 1.
Proof.
  apply (missing_themes_become_empty {[ KStr "a" := 0 ]}
           (State [bare_a] 0 0 0 0) bare_a 0
           [("id", JStr "a"); ("city", JStr "NY")]).
  - exists (JStr "a"). split; reflexivity.
  - reflexivity.
  - reflexivity.
Defined.

(** C3: every candidate that passes the guards and whose [id] no
    production has is appended as it is, after the entries of the
    productions, in candidate order; every production keeps its place, as
    itself or as a merged record of the same [id]; and the created count
    is the number of such candidates. *)
Theorem new_candidates_appended cs ps st :
  merge cs ps = Ok st →
  ∃ body,
    productions st = body ++ filter (λ c, is_new ps c) cs
    ∧ length body = length ps
    ∧ Forall2 same_slot ps body
    ∧ createdCount st = length (filter (λ c, is_new ps c) cs).
Proof.
  intros (idx & Hidx & Hrun)%merge_inv.
  destruct (forEach_shape _ _ _ _ Hidx Hrun)
    as (body & Hbody & Hlen & Hslots & Hcreated & _).
  assert (filter (λ c, creates idx c) cs = filter (λ c, is_new ps c) cs) as Hnew.
  { apply list_filter_iff. intros c. by rewrite (creates_is_new ps idx c Hidx). }
  exists body. by rewrite <- Hnew.
Qed.

Lemma new_candidates_appended_witness :
  ∃ body,
    productions (State [merged_a; candidate_b] 1 1 1 1)
      = body ++ filter (λ c, is_new [existing_a] c) [candidate_a; candidate_b]
    ∧ length body = length [existing_a]
    ∧ Forall2 same_slot [existing_a] body
    ∧ createdCount (State [merged_a; candidate_b] 1 1 1 1)
      = length (filter (λ c, is_new [existing_a] c) [candidate_a; candidate_b]).
Proof.
  apply (new_candidates_appended [candidate_a; candidate_b] [existing_a]
           (State [merged_a; candidate_b] 1 1 1 1)).
  vm_compute. reflexivity.
Defined.

(** C4: the merge does not keep [id] unique.  Two candidates with the
    same new [id] are both appended, since the index of the productions is
    not extended when a candidate is appended. *)
Theorem duplicate_new_ids_both_appended :
  NoDup (omap record_key [existing_a])
  ∧ merge [candidate_b; candidate_b] [existing_a]
      = Ok (State [existing_a; candidate_b; candidate_b] 2 0 0 0)
  ∧ ¬ NoDup (omap record_key [existing_a; candidate_b; candidate_b]).
Proof.
  split_and!.
  - refine (bool_decide_unpack _ _). vm_compute. exact I.
  - vm_compute. reflexivity.
  - refine (bool_decide_unpack _ _). vm_compute. exact I.
Qed.

(** C6, as stated, fails: a candidate without [themes] is appended as it
    is by the first merge, and the second merge gives it empty themes, which
    counts as an update. *)
Lemma second_merge_updates_bare_candidate :
  ∃ st1 st2,
    merge [bare_b] [] = Ok st1
    ∧ merge [bare_b] (productions st1) = Ok st2
    ∧ updatedCount st2 = 1.
Proof.
  exists (State [bare_b] 1 0 0 0). eexists.
  split; [vm_compute; reflexivity|]. split; [vm_compute; reflexivity|]. reflexivity.
Qed.

(** C6, amended: when the candidates have pairwise distinct ids and every
    candidate that the first merge appends is an object with an array of
    themes, the merge of the same candidates into the output of the first
    merge succeeds with an updated count of 0 and a themes-unchanged count
    equal to the number of candidates whose [id] a record of that output
    has. *)
Theorem second_merge_updates_nothing cs ps st1 :
  merge cs ps = Ok st1 →
  NoDup (omap candidate_key cs) →
  Forall (λ c, is_new ps c → complete_record c) cs →
  ∃ st2,
    merge cs (productions st1) = Ok st2
    ∧ updatedCount st2 = 0
    ∧ themesUnchangedCount st2
      = length (filter (λ c, joins (productions st1) c) cs).
Proof.
  intros Hmerge Hnodup Hcomplete.
  destruct (merge_settles cs ps st1 Hmerge Hnodup Hcomplete)
    as (idx2 & Hidx2 & Hsettled).
  destruct (forEach_settled idx2 (productions st1) cs Hsettled
              (State (productions st1) 0 0 0 0)) as (st2 & Hrun & Hu & Ht & _).
  { exists []. simpl. by rewrite app_nil_r. }
  exists st2. unfold merge. rewrite Hidx2. simpl. split_and!; try done.
  rewrite Ht. simpl. f_equal. apply list_filter_iff. intros c.
  by rewrite (merges_joins _ _ c Hidx2).
Qed.

Lemma second_merge_updates_nothing_witness :
  ∃ st2,
    merge [candidate_a; candidate_b]
      (productions (State [merged_a; candidate_b] 1 1 1 1)) = Ok st2
    ∧ updatedCount st2 = 0
    ∧ themesUnchangedCount st2
      = length (filter (λ c, joins (productions (State [merged_a; candidate_b] 1 1 1 1)) c)
                  [candidate_a; candidate_b]).
Proof.
  apply (second_merge_updates_nothing [candidate_a; candidate_b] [existing_a]
           (State [merged_a; candidate_b] 1 1 1 1)).
  - vm_compute. reflexivity.
  - refine (bool_decide_unpack _ _). vm_compute. exact I.
  - constructor; [intros Hnew; by vm_compute in Hnew|].
    constructor; [|constructor]. intros _.
    exists [("id", JStr "b"); ("themes", JArr [JStr "z"])], [JStr "z"].
    split; [reflexivity|]. split; [|reflexivity]. split.
    + refine (bool_decide_unpack _ _). vm_compute. exact I.
    + simpl. repeat constructor.
Defined.

End MergeClaims.

(** ** The run: arguments, files and console *)

Module RunFacts.

Lemma digit_not_space c d : digit_value c = Some d → is_white_space c = false.
Proof. destruct c as [[] [] [] [] [] [] [] []]; by simpl. Qed.

Lemma digit_not_sign c d :
  digit_value c = Some d → c ≠ "-"%char ∧ c ≠ "+"%char.
Proof. destruct c as [[] [] [] [] [] [] [] []]; by simpl. Qed.

Lemma digits_value_leading s : ∀ acc n,
  digits_value s acc = Some n →
  foldl (λ a d, a * 10 + Z.of_N d)%Z (Z.of_N acc) (leading_digits s) = Z.of_N n.
Proof.
  induction s as [|c s IH]; simpl; intros acc n Hn.
  - by injection Hn as <-.
  - destruct (digit_value c) as [d|]; [|done]. simpl.
    rewrite <- (IH _ _ Hn). f_equal. lia.
Qed.

(** On a decimal numeral [parseInt] yields the Number for the integer it
    denotes. *)
Lemma parseInt_decimal s n :
  is_decimal s = true → digits_value s 0 = Some n →
  parseInt s = Some (to_double (Z.of_N n)).
Proof.
  unfold is_decimal. intros [Hne Hall]%andb_true_iff Hn.
  destruct s as [|c s]; [done|]. simpl in Hall, Hn.
  destruct (digit_value c) as [d|] eqn:Hd; [|done].
  unfold parseInt. simpl. rewrite (digit_not_space _ _ Hd).
  destruct (digit_not_sign _ _ Hd) as [Hminus Hplus].
  assert (match c with
          | "-"%char => ((-1)%Z, s)
          | "+"%char => (1%Z, s)
          | _ => (1%Z, String c s)
          end = (1%Z, String c s)) as ->.
  { clear -Hminus Hplus. by destruct c as [[] [] [] [] [] [] [] []]. }
  simpl. rewrite Hd. do 2 f_equal.
  pose proof (digits_value_leading s _ _ Hn) as Hv.
  replace (0 * 10 + Z.of_N d)%Z with (Z.of_N (0 * 10 + d)) by lia.
  rewrite Hv. lia.
Qed.

Lemma report_and_write_spec dryRun out limit total limited st w :
  report_and_write dryRun out limit total limited st w
    = (Ok (),
       World (if dryRun then files w else <[out := written_text st]> (files w))
         (console w ++ report_lines limit total limited st
            ++ if dryRun then [DryRunEnabled] else [])).
Proof.
  unfold report_and_write, report_lines, written_text, io_bind, console_log,
    when, io_ret, writeFile.
  destruct w as [fs out0]. simpl.
  destruct limit as [n|]; [destruct (n =? 0)%Z|];
    destruct (0 <? themeMismatchCount st); destruct dryRun; simpl;
    repeat rewrite <- app_assoc; simpl; by rewrite ?app_nil_r.
Qed.

Section Run.
Context `{Host}.

(** The outcome of [main_body] once the limit is parsed and both files
    hold arrays. *)
Lemma main_body_arrays args flags w limit cs ps :
  parseLimit (args !! "limit") = Ok limit →
  read_array w (candidates_path args) = Some cs →
  read_array w (output_path args) = Some ps →
  main_body args flags w
    = (run st <- lift (merge (limitCandidates limit cs) ps);
       report_and_write (bool_decide ("dry-run" ∈ flags)) (output_path args)
         limit (length cs) (limitCandidates limit cs) st) w.
Proof.
  unfold main_body, read_array, candidates_path, output_path.
  intros -> Hcs Hps.
  unfold io_bind at 1, lift at 1. unfold io_bind at 1, readJson at 1, io_bind at 1,
    readFile at 1.
  destruct (files w !! _) as [raw|]; [|done].
  destruct (JSON_parse raw) as [[| | | |items|]|]; try done.
  injection Hcs as ->. unfold io_ret at 1.
  unfold io_bind at 1, readJson at 1, io_bind at 1, readFile at 1.
  destruct (files w !! _) as [raw'|]; [|done].
  destruct (JSON_parse raw') as [[| | | |items'|]|]; try done.
  by injection Hps as ->.
Qed.

(** ... and when the limit is rejected or a file does not hold an
    array: the run throws and leaves the world as it was. *)
Lemma main_body_aborts args w :
  (∃ e, parseLimit (args !! "limit") = Err e)
  ∨ read_array w (candidates_path args) = None
  ∨ read_array w (output_path args) = None →
  ∃ e, ∀ flags, main_body args flags w = (Err e, w).
Proof.
  unfold main_body, read_array, candidates_path, output_path.
  unfold io_bind, lift, readJson, io_bind, readFile, throw, io_ret.
  intros Hfail.
  destruct (parseLimit (args !! "limit")) as [limit|e]; [|eauto].
  destruct (files w !! path_resolve (get_or args "candidates" _)) as [raw|];
    [|eauto].
  destruct (JSON_parse raw) as [candidates|]; [|eauto].
  destruct (files w !! path_resolve (get_or args "output" _)) as [raw'|];
    [|eauto].
  destruct (JSON_parse raw') as [productions|]; [|eauto].
  destruct candidates as [| | | |cs|]; try eauto;
    destruct productions as [| | | |ps|]; try eauto.
  destruct Hfail as [[e He]|[?|?]]; done.
Qed.
End Run.

End RunFacts.

(** ** The properties of a run *)

Section RunClaims.
Context `{Host}.
Import RunFacts.

(** C9: when the limit is invalid, or a file is missing or malformed, or
    its top-level value is not an array, the run throws, exits with code 1
    and leaves every file as it was: nothing is written. *)
Theorem invalid_input_aborts argv w :
  (∃ e, parseLimit ((parseArgs argv).1 !! "limit") = Err e)
  ∨ read_array w (candidates_path (parseArgs argv).1) = None
  ∨ read_array w (output_path (parseArgs argv).1) = None →
  ∃ e, main argv w = (Err e, w)
       ∧ run_main argv w = (1%Z, World (files w) (console w ++ [ErrorMessage e])).
Proof.
  unfold run_main, main. destruct (parseArgs argv) as [args flags]. simpl.
  intros [e He]%main_body_aborts. exists e. by rewrite He.
Qed.


End RunClaims.


Lemma invalid_input_aborts_witness :
  ∃ e, @main example_host [] broken_world = (Err e, broken_world)
       ∧ @run_main example_host [] broken_world
         = (1%Z, World (files broken_world) (console broken_world ++ [ErrorMessage e])).
Proof.
  apply (@invalid_input_aborts example_host [] broken_world).
  right. right. vm_compute. reflexivity.
Defined.

(** ** Further properties: the arguments *)

Module ArgsFacts.

(** Induction along the loop of [parseArgs], which steps over one argument
    or over an option and its value. *)
Lemma argv_ind (P : list string → Prop) :
  P [] →
  (∀ arg rest,
      P rest → (∀ next rest', rest = next :: rest' → P rest') → P (arg :: rest)) →
  ∀ argv, P argv.
Proof.
  intros Hnil Hcons argv.
  assert (P argv ∧ ∀ next rest', argv = next :: rest' → P rest') as [? _]; [|done].
  induction argv as [|arg rest [IH1 IH2]].
  - split; [done|]. by intros ? ? ?.
  - split; [by apply Hcons|]. by intros ? ? [= -> ->].
Qed.

Lemma substring_all s : String.substring 0 (String.length s) s = s.
Proof. induction s as [|c s IH]; simpl; [done|]. by rewrite IH. Qed.

Lemma slice2_option_token name : slice2 (option_token name) = name.
Proof.
  unfold slice2, option_token. simpl. rewrite Nat.sub_0_r. apply substring_all.
Qed.

Lemma startsWith_option_token name : startsWith (option_token name) "--" = true.
Proof. unfold startsWith, option_token. simpl. by destruct name. Qed.

(** An option token is never taken as a value: parsing starts afresh at
    it. *)
Lemma parseArgs_loop_cons arg rest args flags :
  parseArgs_loop (arg :: rest) args flags
    = if startsWith arg "--" then
        match rest with
        | next :: rest' =>
            if String.eqb next EmptyString || startsWith next "--"
            then parseArgs_loop rest args ({[slice2 arg]} ∪ flags)
            else parseArgs_loop rest' (<[slice2 arg := next]> args) flags
        | [] => (args, {[slice2 arg]} ∪ flags)
        end
      else parseArgs_loop rest args flags.
Proof. by destruct rest. Qed.

Lemma parseArgs_loop_split d tail argv :
  startsWith d "--" = true →
  ∀ args flags,
    parseArgs_loop (argv ++ d :: tail) args flags
      = parseArgs_loop (d :: tail) (parseArgs_loop argv args flags).1
          (parseArgs_loop argv args flags).2.
Proof.
  intros Hd. remember (parseArgs_loop (d :: tail)) as after eqn:Hafter.
  induction argv as [|arg rest IH1 IH2] using argv_ind; intros args flags.
  - cbn [app]. by rewrite Hafter.
  - change ((arg :: rest) ++ d :: tail) with (arg :: (rest ++ d :: tail)).
    rewrite !(parseArgs_loop_cons arg).
    destruct (startsWith arg "--"); [|by apply IH1].
    destruct rest as [|next rest'].
    + cbn [app fst snd]. rewrite Hd, orb_true_r. by rewrite Hafter.
    + change ((next :: rest') ++ d :: tail) with (next :: (rest' ++ d :: tail)).
      cbv iota.
      destruct (String.eqb next EmptyString || startsWith next "--").
      * by apply (IH1 args).
      * by apply (IH2 next rest').
Qed.

(** The accumulators only collect: what the loop adds does not depend on
    what they hold. *)
Lemma parseArgs_loop_acc argv : ∀ args flags,
  parseArgs_loop argv args flags
    = ((parseArgs argv).1 ∪ args, (parseArgs argv).2 ∪ flags).
Proof.
  unfold parseArgs.
  induction argv as [|arg rest IH1 IH2] using argv_ind; intros args flags.
  - cbn. by rewrite !(left_id_L ∅ (∪)).
  - rewrite !(parseArgs_loop_cons arg). destruct (startsWith arg "--"); [|by apply IH1].
    destruct rest as [|next rest'].
    + cbn [fst snd]. by rewrite (left_id_L ∅ (∪)), (right_id_L ∅ (∪)).
    + destruct (String.eqb next EmptyString || startsWith next "--").
      * rewrite (IH1 args), (IH1 ∅ (_ ∪ ∅)). cbn [fst snd].
        by rewrite !(right_id_L ∅ (∪)), (assoc_L (∪)).
      * rewrite (IH2 next rest' eq_refl (<[_ := _]> args)),
          (IH2 next rest' eq_refl (<[_ := _]> ∅)). cbn [fst snd].
        rewrite insert_empty, (right_id_L ∅ (∪)), <- (assoc_L (∪)).
        by rewrite <- insert_union_singleton_l.
Qed.

Lemma parseArgs_loop_plain argv : ∀ args flags,
  map_Forall (λ _ v, plain_word v) args →
  map_Forall (λ _ v, plain_word v) (parseArgs_loop argv args flags).1.
Proof.
  induction argv as [|arg rest IH1 IH2] using argv_ind; intros args flags Hargs;
    [done|].
  rewrite (parseArgs_loop_cons arg). destruct (startsWith arg "--"); [|by apply IH1].
  destruct rest as [|next rest']; [done|].
  destruct (String.eqb next EmptyString || startsWith next "--") eqn:Hnext.
  - by apply IH1.
  - apply (IH2 next rest' eq_refl). apply map_Forall_insert_2; [|done].
    apply orb_false_iff in Hnext as [Hne Hstart]. split; [|done].
    by apply String.eqb_neq in Hne.
Qed.

End ArgsFacts.

Section ArgsProperties.
Import ArgsFacts.

(** X1: every value that [parseArgs] records for an option is a word that
    is not empty and does not begin with two dashes. *)
Theorem parseArgs_values_are_words argv name v :
  (parseArgs argv).1 !! name = Some v →
  v ≠ EmptyString ∧ startsWith v "--" = false.
Proof.
  intros Hv.
  apply (parseArgs_loop_plain argv ∅ ∅ (map_Forall_empty _) name v Hv).
Qed.

Lemma parseArgs_values_are_words_witness :
  "x.json" ≠ EmptyString ∧ startsWith "x.json" "--" = false.
Proof.
  apply (parseArgs_values_are_words ["--output"; "x.json"; "--dry-run"] "output").
  vm_compute. reflexivity.
Defined.

(** X2: the arguments before an option token and the arguments from it on
    are parsed one after the other: the token is never the value of what
    comes before it. *)
Theorem parseArgs_splits_at_option argv d tail :
  startsWith d "--" = true →
  parseArgs (argv ++ d :: tail)
    = parseArgs_loop (d :: tail) (parseArgs argv).1 (parseArgs argv).2
    ∧ parseArgs (argv ++ d :: tail)
      = ((parseArgs (d :: tail)).1 ∪ (parseArgs argv).1,
         (parseArgs (d :: tail)).2 ∪ (parseArgs argv).2).
Proof.
  intros Hd.
  assert (parseArgs (argv ++ d :: tail)
            = parseArgs_loop (d :: tail) (parseArgs argv).1 (parseArgs argv).2)
    as Hsplit by apply (parseArgs_loop_split d tail argv Hd ∅ ∅).
  split; [done|]. rewrite Hsplit. apply parseArgs_loop_acc.
Qed.

Lemma parseArgs_splits_at_option_witness :
  parseArgs (["--limit"] ++ "--output" :: ["x.json"])
    = parseArgs_loop ("--output" :: ["x.json"]) (parseArgs ["--limit"]).1
        (parseArgs ["--limit"]).2
  ∧ parseArgs (["--limit"] ++ "--output" :: ["x.json"])
    = ((parseArgs ("--output" :: ["x.json"])).1 ∪ (parseArgs ["--limit"]).1,
       (parseArgs ("--output" :: ["x.json"])).2 ∪ (parseArgs ["--limit"]).2).
Proof.
  apply (parseArgs_splits_at_option ["--limit"] "--output" ["x.json"]).
  reflexivity.
Defined.

(** X3: an option at the end of the arguments always takes effect: a bare
    [--name] becomes a flag and leaves the rest as it is, and [--name v]
    with a word [v] sets the option, overriding an earlier value. *)
Theorem parseArgs_last_option_wins argv name v :
  plain_word v →
  parseArgs (argv ++ [option_token name])
    = ((parseArgs argv).1, {[name]} ∪ (parseArgs argv).2)
  ∧ parseArgs (argv ++ [option_token name; v])
    = (<[name := v]> (parseArgs argv).1, (parseArgs argv).2).
Proof.
  intros [Hne Hstart]. unfold parseArgs.
  rewrite !parseArgs_loop_split by apply startsWith_option_token.
  rewrite !parseArgs_loop_cons, startsWith_option_token, slice2_option_token.
  split; [done|]. rewrite Hstart.
  by apply String.eqb_neq in Hne as ->.
Qed.

Lemma parseArgs_last_option_wins_witness :
  parseArgs (["--limit"; "3"] ++ [option_token "limit"])
    = ((parseArgs ["--limit"; "3"]).1, {["limit"]} ∪ (parseArgs ["--limit"; "3"]).2)
  ∧ parseArgs (["--limit"; "3"] ++ [option_token "limit"; "7"])
    = (<["limit" := "7"]> (parseArgs ["--limit"; "3"]).1,
       (parseArgs ["--limit"; "3"]).2).
Proof.
  apply (parseArgs_last_option_wins ["--limit"; "3"] "limit" "7").
  split; [discriminate | reflexivity].
Defined.

(** X4: an option token followed by a word is an option with that value
    and never a flag: [--dry-run x] does not ask for a dry run, whatever
    follows decides. *)
Theorem parseArgs_word_after_option name v rest :
  plain_word v →
  parseArgs (option_token name :: v :: rest)
    = ((parseArgs rest).1 ∪ {[name := v]}, (parseArgs rest).2).
Proof.
  intros [Hne Hstart]. unfold parseArgs at 1.
  rewrite parseArgs_loop_cons, startsWith_option_token, slice2_option_token, Hstart.
  apply String.eqb_neq in Hne as ->. cbn [orb].
  by rewrite parseArgs_loop_acc, insert_empty, (right_id_L ∅ (∪)).
Qed.

Lemma parseArgs_word_after_option_witness :
  parseArgs (option_token "dry-run" :: "x.json" :: ["--limit"; "2"])
    = ((parseArgs ["--limit"; "2"]).1 ∪ {["dry-run" := "x.json"]},
       (parseArgs ["--limit"; "2"]).2).
Proof.
  apply (parseArgs_word_after_option "dry-run" "x.json" ["--limit"; "2"]).
  split; [discriminate | reflexivity].
Defined.

End ArgsProperties.

(** ** Further properties: the limit *)

Module LimitFacts.
Import RunFacts.

Lemma digits_value_uint_acc d : ∀ acc,
  digits_value (NilEmpty.string_of_uint d) (Npos acc)
    = Some (Npos (Pos.of_uint_acc d acc)).
Proof.
  induction d; intros acc; simpl; [done|..];
    rewrite <- IHd; f_equal; lia.
Qed.

Lemma digits_value_uint d :
  digits_value (NilEmpty.string_of_uint d) 0 = Some (Pos.of_uint d).
Proof.
  induction d; simpl; try done; apply digits_value_uint_acc.
Qed.

Lemma is_decimal_uint d :
  d ≠ Decimal.Nil → is_decimal (NilEmpty.string_of_uint d) = true.
Proof.
  intros Hd. unfold is_decimal. apply andb_true_iff. split.
  - by destruct d.
  - clear Hd. induction d; simpl; try done.
Qed.

(** [parseInt] on a minus sign and a decimal numeral. *)
Lemma parseInt_minus s n :
  is_decimal s = true → digits_value s 0 = Some n →
  parseInt (String "-" s) = Some (to_double (- Z.of_N n)).
Proof.
  unfold is_decimal. intros [Hne Hall]%andb_true_iff Hn.
  destruct s as [|c s]; [done|]. simpl in Hn.
  destruct (digit_value c) as [d|] eqn:Hd; [|done].
  unfold parseInt. simpl. rewrite Hd. do 2 f_equal.
  pose proof (digits_value_leading s _ _ Hn) as Hv.
  replace (0 * 10 + Z.of_N d)%Z with (Z.of_N (0 * 10 + d)) by lia.
  rewrite Hv. lia.
Qed.

Lemma parseInt_NumberToString n :
  parseInt (NumberToString n) = Some (to_double n).
Proof.
  unfold NumberToString. destruct n as [|p|p]; simpl; [done|..].
  - rewrite (parseInt_decimal _ (Npos p)); [done| |].
    + apply is_decimal_uint, DecimalPos.Unsigned.to_uint_nonnil.
    + by rewrite digits_value_uint, DecimalPos.Unsigned.of_to.
  - rewrite (parseInt_minus _ (Npos p)); [done| |].
    + apply is_decimal_uint, DecimalPos.Unsigned.to_uint_nonnil.
    + by rewrite digits_value_uint, DecimalPos.Unsigned.of_to.
Qed.

(** *** Rounding *)

Lemma to_double_safe n : (Z.abs n ≤ 2 ^ 53)%Z → to_double n = n.
Proof.
  intros Hn. unfold to_double.
  destruct (Z.abs n <=? 2 ^ 53)%Z eqn:Hsafe; [done|].
  apply Z.leb_gt in Hsafe. lia.
Qed.

(** Beyond [2^53] the magnitude of the Number is [2^53] at least. *)
Lemma to_double_large n :
  (2 ^ 53 < Z.abs n)%Z →
  ∃ m, (2 ^ 53 ≤ m)%Z ∧ to_double n = (Z.sgn n * m)%Z.
Proof.
  intros Hlarge. unfold to_double.
  destruct (Z.abs n <=? 2 ^ 53)%Z eqn:Hsafe; [apply Z.leb_le in Hsafe; lia|].
  eexists. split; [|reflexivity].
  set (a := Z.abs n) in *. set (e := (Z.log2 a - 52)%Z).
  assert (0 < a)%Z as Ha by lia.
  assert (53 ≤ Z.log2 a)%Z as Hlog.
  { change 53%Z with (Z.log2 (2 ^ 53)). apply Z.log2_le_mono. lia. }
  assert (2 ^ 52 ≤ Z.shiftr a e)%Z as Hq.
  { rewrite Z.shiftr_div_pow2 by lia.
    apply Z.div_le_lower_bound; [apply Z.pow_pos_nonneg; lia|].
    rewrite <- Z.pow_add_r by lia.
    replace (e + 52)%Z with (Z.log2 a) by lia.
    apply (Z.log2_spec a Ha). }
  set (q := Z.shiftr a e) in *.
  set (q' := if (_ <? _)%Z then _ else _).
  assert (q ≤ q')%Z as Hq'.
  { unfold q'. destruct (_ <? _)%Z; [lia|]. destruct (_ <? _)%Z; [lia|].
    destruct (Z.even q); lia. }
  apply Z.min_glb; [|apply Z.pow_le_mono_r; lia].
  rewrite Z.shiftl_mul_pow2 by lia.
  assert (2 ^ 1 ≤ 2 ^ e)%Z as He by (apply Z.pow_le_mono_r; lia).
  change (2 ^ 53)%Z with (2 ^ 52 * 2 ^ 1)%Z.
  apply Z.mul_le_mono_nonneg; lia.
Qed.

(** Rounding keeps the sign. *)
Lemma to_double_sgn n : Z.sgn (to_double n) = Z.sgn n.
Proof.
  destruct (Z.le_gt_cases (Z.abs n) (2 ^ 53)) as [Hsafe|Hlarge].
  - by rewrite to_double_safe.
  - destruct (to_double_large n Hlarge) as (m & Hm & ->).
    assert (0 < m)%Z as Hpos by lia. clear -Hpos. destruct n; simpl; lia.
Qed.

Lemma to_double_pos n : (0 < to_double n)%Z ↔ (0 < n)%Z.
Proof. pose proof (to_double_sgn n). lia. Qed.


End LimitFacts.

Section LimitProperties.
Import LimitFacts.

(** X5: [parseInt] reads the decimal numeral of an integer [n] as the
    Number nearest to [n], which is [n] itself up to [2^53] in magnitude,
    so [parseLimit] accepts the numeral of a positive integer, with that
    Number as the limit, and rejects the numeral of zero and of a negative
    integer. *)
Theorem parseLimit_reads_numerals n :
  parseInt (NumberToString n) = Some (to_double n)
  ∧ ((Z.abs n ≤ 2 ^ 53)%Z → parseInt (NumberToString n) = Some n)
  ∧ parseLimit (Some (NumberToString n))
    = if (0 <? n)%Z then Ok (Some (to_double n))
      else Err (invalid_limit (NumberToString n)).
Proof.
  pose proof (parseInt_NumberToString n) as Hn. split_and!; [done| |].
  - intros Hsafe. by rewrite Hn, to_double_safe.
  - unfold parseLimit. rewrite Hn. pose proof (to_double_pos n) as Hpos.
    destruct (0 <? n)%Z eqn:Hn0.
    + apply Z.ltb_lt in Hn0. by destruct (to_double n <=? 0)%Z eqn:Hle; [lia|].
    + apply Z.ltb_ge in Hn0. by destruct (to_double n <=? 0)%Z eqn:Hle; [|lia].
Qed.

(** X6: a limit that [parseLimit] accepts cuts the candidates to their
    first [min n length] entries, in order, and never to none of them when
    there are some. *)
Theorem accepted_limit_keeps_a_prefix value limit cs :
  parseLimit value = Ok limit →
  limitCandidates limit cs `prefix_of` cs
  ∧ length (limitCandidates limit cs)
    = match limit with
      | Some n => Nat.min (Z.to_nat n) (length cs)
      | None => length cs
      end
  ∧ (cs ≠ [] → limitCandidates limit cs ≠ []).
Proof.
  intros Hlimit.
  assert (match limit with Some n => (0 < n)%Z | None => True end) as Hpos.
  { unfold parseLimit in Hlimit. destruct value as [v|]; [|by injection Hlimit as <-].
    destruct (parseInt v) as [n|]; [|done].
    destruct (n <=? 0)%Z eqn:Hle; [done|]. injection Hlimit as <-.
    by apply Z.leb_gt in Hle. }
  destruct limit as [n|]; simpl; [|done].
  unfold slice_to. destruct (n =? 0)%Z eqn:Hz; [lia|].
  destruct (n <? 0)%Z eqn:Hneg; [lia|].
  split_and!.
  - apply prefix_take.
  - apply length_take.
  - destruct cs as [|c cs]; [done|]. intros _.
    destruct (Z.to_nat n) eqn:Hnat; [lia|]. done.
Qed.

Lemma accepted_limit_keeps_a_prefix_witness :
  limitCandidates (Some 1%Z) [candidate_a; candidate_b]
    `prefix_of` [candidate_a; candidate_b]
  ∧ length (limitCandidates (Some 1%Z) [candidate_a; candidate_b])
    = Nat.min (Z.to_nat 1) (length [candidate_a; candidate_b])
  ∧ ([candidate_a; candidate_b] ≠ [] →
     limitCandidates (Some 1%Z) [candidate_a; candidate_b] ≠ []).
Proof.
  apply (accepted_limit_keeps_a_prefix (Some "1") (Some 1%Z)
           [candidate_a; candidate_b]).
  reflexivity.
Defined.

End LimitProperties.

(** ** The limit of a run *)

Section LimitClaim.
Context `{Host}.
Import RunFacts ArgsFacts LimitFacts.


End LimitClaim.



(** ** Further properties: the comparison of themes and the index *)

Module CompareFacts.
Import ObjectFacts StepFacts.

#[local] Arguments Map_get : simpl never.
#[local] Arguments areArraysEqual : simpl never.
#[local] Arguments mergeRecord : simpl never.
#[local] Arguments hasChanges : simpl never.

Lemma strict_equals_primitive same a b :
  primitive a = true → strict_equals same a b = true ↔ a = b.
Proof.
  intros Ha. destruct a, b; simpl in *; try done.
  - rewrite Bool.eqb_true_iff. split; congruence.
  - rewrite Z.eqb_eq. split; congruence.
  - rewrite String.eqb_eq. split; congruence.
Qed.

Lemma strict_equals_composite a o :
  primitive a = false → strict_equals_opt false (Some a) o = false.
Proof. intros Ha. destruct a, o as [[]|]; simpl in *; done. Qed.

(** [left.every] over primitives, against an array of the same length. *)
Lemma every_primitive same l : ∀ r,
  Forall (λ v, primitive v = true) l → length l = length r →
  forallb id (imap (λ index value,
                      strict_equals_opt same (Some value) (r !! index)) l) = true
  ↔ l = r.
Proof.
  induction l as [|x l IH]; intros [|y r] Hprim Hlen; simpl in *; try done.
  inversion Hprim as [|? ? Hx Hl]; subst.
  rewrite andb_true_iff. unfold id at 1.
  rewrite (strict_equals_primitive same x y Hx).
  unfold compose. simpl. rewrite (IH r Hl) by lia.
  split; [by intros [-> ->] | by intros [= -> ->]].
Qed.

Lemma get_prop_error v name e : get_prop v name = Err e → e = TypeError.
Proof. destruct v; simpl; congruence. Qed.

Lemma get_length_error v e : get_length v = Err e → e = TypeError.
Proof. destruct v; simpl; congruence. Qed.

Lemma areArraysEqual_error same l r e :
  areArraysEqual same l r = Err e → e = TypeError.
Proof.
  unfold areArraysEqual.
  destruct (get_length l) as [ll|] eqn:Hl; simpl;
    [|intros [= <-]; by eapply get_length_error].
  destruct (get_length r) as [lr|] eqn:Hr; simpl;
    [|intros [= <-]; by eapply get_length_error].
  destruct (negb _); [done|]. destruct l; congruence.
Qed.

(** Whatever the loop body throws is a [TypeError]. *)
Lemma processCandidate_error idx st c e :
  processCandidate idx st c = Err e → e = TypeError.
Proof.
  unfold processCandidate. destruct (negb (truthy c) || _); [done|].
  destruct (get_prop c "id") as [id|] eqn:Hid; simpl;
    [|intros [= <-]; by eapply get_prop_error].
  destruct (negb (truthy_opt id)); [done|].
  destruct (Map_get idx id) as [i|]; [|done].
  unfold get_element. destruct (productions st !! i) as [existing|]; simpl;
    [|congruence].
  destruct (get_prop existing "themes") as [et|] eqn:Het; simpl;
    [|intros [= <-]; by eapply get_prop_error].
  destruct (get_prop c "themes") as [ct|] eqn:Hct; simpl;
    [|intros [= <-]; by eapply get_prop_error].
  destruct (areArraysEqual false _ _) as [b|] eqn:Hb; simpl;
    [|intros [= <-]; by eapply areArraysEqual_error].
  destruct (areArraysEqual true _ _) as [b'|] eqn:Hb'; simpl;
    [|intros [= <-]; by eapply areArraysEqual_error].
  by destruct (hasChanges _ _).
Qed.

Lemma forEach_error idx cs : ∀ st e,
  forEach idx cs st = Err e → e = TypeError.
Proof.
  induction cs as [|c cs IH]; simpl; intros st e; [done|].
  destruct (processCandidate idx st c) as [st'|] eqn:Hc; simpl.
  - apply IH.
  - intros [= <-]. by eapply processCandidate_error.
Qed.

Lemma buildIndex_from_error ps : ∀ n m e,
  buildIndex_from n ps m = Err e → e = TypeError.
Proof.
  induction ps as [|p ps IH]; simpl; intros n m e; [done|].
  destruct (indexProduction m p n) as [m'|] eqn:Hp; simpl; [apply IH|].
  intros [= <-]. unfold indexProduction in Hp.
  destruct (get_prop p "id") as [id|] eqn:Hid; simpl in Hp.
  - destruct id as [id|]; [destruct (truthy id)|]; done.
  - injection Hp as <-. by eapply get_prop_error.
Qed.

Lemma merge_error cs ps e : merge cs ps = Err e → e = TypeError.
Proof.
  unfold merge. destruct (buildIndex ps) as [idx|] eqn:Hidx; simpl.
  - apply forEach_error.
  - intros [= <-]. by eapply buildIndex_from_error.
Qed.

Lemma buildIndex_null ps : JNull ∈ ps ↔ buildIndex ps = Err TypeError.
Proof.
  split.
  - intros Hnull. destruct (buildIndex ps) as [idx|] eqn:Hidx.
    + apply buildIndex_from_not_null in Hidx.
      rewrite Forall_forall in Hidx. by destruct (Hidx _ Hnull).
    + f_equal. by eapply buildIndex_from_error.
  - intros Herr.
    destruct (existsb (λ p, match p with JNull => true | _ => false end) ps)
      eqn:Hex.
    + apply existsb_exists in Hex as (p & Hp%list_elem_of_In & Hnull).
      by destruct p.
    + assert (Forall (λ p, p ≠ JNull) ps) as Hall.
      { apply Forall_forall. intros p Hp%list_elem_of_In ->.
        apply not_true_iff_false in Hex. apply Hex, existsb_exists.
        by exists JNull. }
      destruct (buildIndex_from_total ps 0 ∅ Hall) as [idx Hidx].
      unfold buildIndex in Herr. congruence.
Qed.

End CompareFacts.

Section CompareProperties.
Import ObjectFacts StepFacts CompareFacts.

(** X7: on two arrays whose left one holds only primitives (strings,
    numbers, booleans, nulls), [areArraysEqual] does not throw and answers
    [true] exactly when the two arrays are equal, element by element and in
    order. *)
Theorem areArraysEqual_decides_equality same l r :
  Forall (λ v, primitive v = true) l →
  ∃ b, areArraysEqual same (JArr l) (JArr r) = Ok b ∧ (b = true ↔ l = r).
Proof.
  intros Hprim. unfold areArraysEqual. simpl.
  destruct (Z.of_nat (length l) =? Z.of_nat (length r))%Z eqn:Hlen; simpl.
  - apply Z.eqb_eq in Hlen. eexists. split; [done|].
    apply every_primitive; [done|lia].
  - apply Z.eqb_neq in Hlen. exists false. split; [done|].
    split; [done|]. intros ->. lia.
Qed.

Lemma areArraysEqual_decides_equality_witness :
  ∃ b, areArraysEqual false (JArr [JStr "x"; JStr "y"]) (JArr [JStr "y"; JStr "x"])
       = Ok b
       ∧ (b = true ↔ [JStr "x"; JStr "y"] = [JStr "y"; JStr "x"]).
Proof.
  apply (areArraysEqual_decides_equality false [JStr "x"; JStr "y"]
           [JStr "y"; JStr "x"]).
  repeat constructor.
Defined.

(** X8: an array that holds an array or an object is never found equal
    to a value read from the other file, not even to a copy of itself:
    the comparison answers [false]. *)
Theorem areArraysEqual_never_on_composites l v right :
  v ∈ l → primitive v = false → right ≠ JNull →
  areArraysEqual false (JArr l) right = Ok false.
Proof.
  intros Hv Hcomp Hright. unfold areArraysEqual. simpl.
  destruct (get_length right) as [len|] eqn:Hlen; [|by destruct right].
  simpl. destruct (negb _); [done|]. f_equal.
  apply not_true_is_false. intros Hall.
  apply list_elem_of_lookup in Hv as [i Hi].
  rewrite forallb_forall in Hall.
  specialize (Hall (strict_equals_opt false (Some v) (get_index right i))).
  rewrite (strict_equals_composite v _ Hcomp) in Hall.
  enough (false = true) by done. unfold id in Hall. apply Hall.
  apply list_elem_of_In, list_elem_of_lookup. exists i.
  rewrite list_lookup_imap, Hi. simpl. f_equal.
  apply (strict_equals_composite v (get_index right i) Hcomp).
Qed.

Lemma areArraysEqual_never_on_composites_witness :
  areArraysEqual false (JArr [JArr [JStr "x"]]) (JArr [JArr [JStr "x"]]) = Ok false.
Proof.
  apply (areArraysEqual_never_on_composites [JArr [JStr "x"]] (JArr [JStr "x"])
           (JArr [JArr [JStr "x"]])).
  - apply list_elem_of_here.
  - reflexivity.
  - discriminate.
Defined.

(** X9: a candidate whose [id] matches a production whose [themes] are
    truthy but not an array (a string, a number, an object) makes the loop
    body throw a [TypeError], whatever themes the candidate has. *)
Theorem processCandidate_throws_on_non_array_themes idx st c i existing :
  matches idx c i → productions st !! i = Some existing →
  is_array (kept_themes existing) = false →
  processCandidate idx st c = Err TypeError.
Proof.
  intros (id & Hid & Hget) Hex Harr.
  destruct (processCandidate idx st c) as [st'|e] eqn:Hstep.
  - destruct (processCandidate_match_inv _ _ _ _ _ _ Hid Hget Hstep)
      as (existing' & _ & Hex' & _ & Harr' & _).
    congruence.
  - f_equal. by eapply processCandidate_error.
Qed.

Lemma processCandidate_throws_on_non_array_themes_witness :
  processCandidate {[ KStr "a" := 0 ]}
    (State [JObj [("id", JStr "a"); ("themes", JStr "x")]] 0 0 0 0) candidate_a
  = Err TypeError.
Proof.
  apply (processCandidate_throws_on_non_array_themes {[ KStr "a" := 0 ]}
           (State [JObj [("id", JStr "a"); ("themes", JStr "x")]] 0 0 0 0)
           candidate_a 0 (JObj [("id", JStr "a"); ("themes", JStr "x")])).
  - exists (JStr "a"). split; reflexivity.
  - reflexivity.
  - reflexivity.
Defined.

(** X10: the index built from the productions sends a key to the position
    of the last production that has it, and has no entry for a key that no
    production has. *)
Theorem buildIndex_finds_last_production ps idx k :
  buildIndex ps = Ok idx →
  match idx !! k with
  | Some i =>
      (∃ p, ps !! i = Some p ∧ record_key p = Some k)
      ∧ ∀ j q, i < j → ps !! j = Some q → record_key q ≠ Some k
  | None => ∀ p, p ∈ ps → record_key p ≠ Some k
  end.
Proof.
  intros Hidx. rewrite (buildIndex_lookup _ _ _ Hidx).
  destruct (last_index k ps 0) as [i|] eqn:Hlast.
  - destruct (last_index_Some _ _ _ _ Hlast) as (p & _ & Hp & Hk & Hafter).
    rewrite Nat.sub_0_r in Hp, Hafter. split; [by exists p | done].
  - by eapply last_index_None.
Qed.

Lemma buildIndex_finds_last_production_witness :
  match ({[ KStr "a" := 1 ]} : gmap key nat) !! KStr "a" with
  | Some i =>
      (∃ p, [existing_a; merged_a] !! i = Some p ∧ record_key p = Some (KStr "a"))
      ∧ ∀ j q, i < j → [existing_a; merged_a] !! j = Some q
               → record_key q ≠ Some (KStr "a")
  | None => ∀ p, p ∈ [existing_a; merged_a] → record_key p ≠ Some (KStr "a")
  end.
Proof.
  apply (buildIndex_finds_last_production [existing_a; merged_a]
           {[ KStr "a" := 1 ]} (KStr "a")).
  vm_compute. reflexivity.
Defined.

(** X11: building the index throws, with a [TypeError], exactly when some
    production is [null]; the merge then throws before it looks at any
    candidate.  Whatever else the merge throws is a [TypeError] too. *)
Theorem null_production_throws cs ps :
  (JNull ∈ ps ↔ buildIndex ps = Err TypeError)
  ∧ (JNull ∈ ps → merge cs ps = Err TypeError)
  ∧ (∀ e, merge cs ps = Err e → e = TypeError).
Proof.
  split_and!.
  - apply buildIndex_null.
  - intros Hnull%buildIndex_null. unfold merge. by rewrite Hnull.
  - intros e. apply merge_error.
Qed.

End CompareProperties.

(** ** Further properties: the merged record *)

Section RecordProperties.
Import ObjectFacts StepFacts MergeFacts.

#[local] Arguments mergeRecord : simpl never.
#[local] Arguments hasChanges : simpl never.

(** X12: the merged record is an object without repeated names, index
    names first; its [themes] are the themes handed in, every other field
    that the candidate has is the candidate's, and every other field is
    the production's. *)
Theorem mergeRecord_fields existing c t :
  ∃ props,
    mergeRecord existing c t = JObj props
    ∧ js_object props
    ∧ ∀ name,
        lookup_prop name props
        = if String.eqb "themes" name then Some t
          else match lookup_prop name (own_props c) with
               | Some v => Some v
               | None => lookup_prop name (own_props existing)
               end.
Proof.
  destruct (js_object_mergeRecord existing c t) as (props & Hprops & Hobj).
  exists props. split_and!; [done..|].
  intros name. unfold mergeRecord in Hprops. injection Hprops as <-.
  rewrite lookup_CreateDataProperty, !lookup_CopyDataProperties.
  destruct (String.eqb "themes" name); [done|].
  destruct (lookup_prop name (own_props c)); [done|].
  by destruct (lookup_prop name (own_props existing)).
Qed.

(** X13: merging the same candidate, with the same themes, into the
    record that the merge produced gives that record again, and the change
    test then reports no change. *)
Theorem merging_again_changes_nothing existing c t :
  mergeRecord (mergeRecord existing c t) c t = mergeRecord existing c t
  ∧ hasChanges (mergeRecord existing c t)
      (mergeRecord (mergeRecord existing c t) c t) = false.
Proof.
  pose proof (mergeRecord_idem existing c t) as Hidem.
  split; [done|]. by apply hasChanges_false.
Qed.

(** X14: when the production is an object that has [themes] and the
    candidate brings no field that the production lacks, the merged record
    lists the fields of the production, in the order of the production. *)
Theorem mergeRecord_keeps_field_order pe pc t :
  js_object pe → lookup_prop "themes" pe ≠ None →
  (∀ name, name ∈ pc.*1 → name ∈ pe.*1) →
  ∃ props, mergeRecord (JObj pe) (JObj pc) t = JObj props ∧ props.*1 = pe.*1.
Proof.
  intros Hobj Hthemes Hsub. eexists. split; [done|]. simpl.
  rewrite (CopyDataProperties_nil pe Hobj).
  rewrite CreateDataProperty_keys.
  - apply CopyDataProperties_keys. intros name Hname.
    by apply lookup_prop_is_Some, Hsub.
  - rewrite lookup_CopyDataProperties. by destruct (lookup_prop "themes" pc).
Qed.

Lemma mergeRecord_keeps_field_order_witness :
  ∃ props,
    mergeRecord existing_a candidate_a (JArr [JStr "x"]) = JObj props
    ∧ props.*1 = ["id"; "themes"; "city"].
Proof.
  apply (mergeRecord_keeps_field_order
           [("id", JStr "a"); ("themes", JArr [JStr "x"]); ("city", JStr "NY")]
           [("id", JStr "a"); ("themes", JArr [JStr "y"]); ("city", JStr "LA")]
           (JArr [JStr "x"])).
  - split; [refine (bool_decide_unpack _ _); vm_compute; exact I|].
    repeat split; repeat constructor.
  - discriminate.
  - intros name Hname. exact Hname.
Defined.

(** X15: the change test, which compares the serialisations of the two
    records, reports a change exactly when the records differ, in a value,
    a field or the order of the fields; and it does not matter which of the
    two is given first. *)
Theorem hasChanges_iff_different a b :
  (hasChanges a b = false ↔ a = b)
  ∧ (hasChanges a b = true ↔ a ≠ b)
  ∧ hasChanges a b = hasChanges b a.
Proof.
  split_and!; [apply hasChanges_false | apply hasChanges_true |].
  unfold hasChanges. f_equal. apply String.eqb_sym.
Qed.

End RecordProperties.

(** ** Further properties: the loop over the candidates *)

Module LoopFacts.
Import ObjectFacts StepFacts MergeFacts.

#[local] Arguments Map_get : simpl never.
#[local] Arguments areArraysEqual : simpl never.
#[local] Arguments mergeRecord : simpl never.
#[local] Arguments hasChanges : simpl never.

Lemma passes_guards_Some c id : candidate_id c = Some id → passes_guards c = true.
Proof. unfold passes_guards. by intros ->. Qed.

Lemma passes_guards_None c : candidate_id c = None → passes_guards c = false.
Proof. unfold passes_guards. by intros ->. Qed.

Lemma filter_guards_snoc processed c :
  length (filter (λ c, passes_guards c) (processed ++ [c]))
  = length (filter (λ c, passes_guards c) processed)
    + (if passes_guards c then 1 else 0).
Proof.
  rewrite filter_app, length_app. f_equal.
  rewrite filter_cons, filter_nil.
  destruct (passes_guards c); by case_decide.
Qed.

(** The loop skips the candidates that fail the guards. *)
Lemma forEach_filter_guards idx cs : ∀ st,
  forEach idx cs st = forEach idx (filter (λ c, passes_guards c) cs) st.
Proof.
  induction cs as [|c cs IH]; intros st; [done|].
  rewrite filter_cons. destruct (candidate_id c) as [id|] eqn:Hid.
  - rewrite decide_True by (by rewrite (passes_guards_Some c id Hid)).
    simpl. destruct (processCandidate idx st c); simpl; [apply IH|done].
  - rewrite decide_False
      by (rewrite (passes_guards_None c Hid); by intros []).
    simpl. rewrite (processCandidate_skip idx st c Hid). simpl. apply IH.
Qed.

End LoopFacts.

Section LoopProperties.
Import ObjectFacts StepFacts MergeFacts LoopFacts.

#[local] Arguments Map_get : simpl never.
#[local] Arguments areArraysEqual : simpl never.
#[local] Arguments mergeRecord : simpl never.
#[local] Arguments hasChanges : simpl never.

(** X16: what the counters of a merge add up to: the output has one entry
    per production and one per creation; every candidate that passes the
    guards is counted once, as a creation or under themes-unchanged; and
    neither the updates nor the theme mismatches outnumber the
    themes-unchanged count. *)
Theorem merge_counts_add_up cs ps st :
  merge cs ps = Ok st →
  length (productions st) = length ps + createdCount st
  ∧ createdCount st + themesUnchangedCount st
    = length (filter (λ c, passes_guards c) cs)
  ∧ updatedCount st ≤ themesUnchangedCount st
  ∧ themeMismatchCount st ≤ themesUnchangedCount st.
Proof.
  intros (idx & Hidx & Hrun)%merge_inv.
  apply (forEach_ind idx (λ processed st,
    length (productions st) = length ps + createdCount st
    ∧ createdCount st + themesUnchangedCount st
      = length (filter (λ c, passes_guards c) processed)
    ∧ updatedCount st ≤ themesUnchangedCount st
    ∧ themeMismatchCount st ≤ themesUnchangedCount st) cs (State ps 0 0 0 0) st);
    [| |exact Hrun].
  - simpl. split_and!; lia.
  - intros processed c st0 st1 (Hlen & Hsum & Hupd & Hmis) Hstep.
    rewrite filter_guards_snoc.
    destruct (candidate_id c) as [id|] eqn:Hid.
    2:{ rewrite (processCandidate_skip idx st0 c Hid) in Hstep.
        injection Hstep as <-. rewrite (passes_guards_None c Hid).
        split_and!; lia. }
    rewrite (passes_guards_Some c id Hid).
    destruct (Map_get idx (Some id)) as [i|] eqn:Hget.
    2:{ rewrite (processCandidate_create idx st0 c id Hid Hget) in Hstep.
        injection Hstep as <-. simpl. rewrite length_app. simpl.
        split_and!; lia. }
    destruct (processCandidate_match_inv _ _ _ _ _ _ Hid Hget Hstep)
      as (existing & themes_equal & _ & _ & _ & _ & ->).
    cbv zeta. simpl.
    destruct (hasChanges existing _), themes_equal;
      rewrite ?length_insert; split_and!; lia.
Qed.

Lemma merge_counts_add_up_witness :
  length (productions (State [merged_a; candidate_b] 1 1 1 1))
  = length [existing_a] + createdCount (State [merged_a; candidate_b] 1 1 1 1)
  ∧ createdCount (State [merged_a; candidate_b] 1 1 1 1)
    + themesUnchangedCount (State [merged_a; candidate_b] 1 1 1 1)
    = length (filter (λ c, passes_guards c) [candidate_a; candidate_b])
  ∧ updatedCount (State [merged_a; candidate_b] 1 1 1 1)
    ≤ themesUnchangedCount (State [merged_a; candidate_b] 1 1 1 1)
  ∧ themeMismatchCount (State [merged_a; candidate_b] 1 1 1 1)
    ≤ themesUnchangedCount (State [merged_a; candidate_b] 1 1 1 1).
Proof.
  apply (merge_counts_add_up [candidate_a; candidate_b] [existing_a]
           (State [merged_a; candidate_b] 1 1 1 1)).
  vm_compute. reflexivity.
Defined.

(** X17: candidates that fail the guards (not an object, or without a
    truthy [id]) have no effect at all: the merge is the merge of the
    candidates that pass them. *)
Theorem merge_ignores_failing_candidates cs ps :
  merge cs ps = merge (filter (λ c, passes_guards c) cs) ps.
Proof.
  unfold merge. destruct (buildIndex ps) as [idx|]; simpl; [|done].
  apply forEach_filter_guards.
Qed.

(** X18: when no candidate passes the guards (and in particular when
    there is no candidate) and no production is [null], the merge returns
    the productions as they are, with every counter at zero. *)
Theorem merge_of_nothing cs ps :
  Forall (λ c, passes_guards c = false) cs →
  Forall (λ p, p ≠ JNull) ps →
  merge cs ps = Ok (State ps 0 0 0 0).
Proof.
  intros Hcs Hps. unfold merge.
  destruct (buildIndex_from_total ps 0 ∅ Hps) as [idx Hidx].
  fold (buildIndex ps) in Hidx. rewrite Hidx. simpl.
  rewrite forEach_filter_guards.
  assert (filter (λ c, passes_guards c) cs = []) as ->; [|done].
  induction Hcs as [|c cs Hc _ IH]; [done|].
  rewrite filter_cons, decide_False; [done|]. rewrite Hc. by intros [].
Qed.

Lemma merge_of_nothing_witness :
  merge [JNull; JStr "a"; JObj [("id", JNum 0)]] [existing_a]
  = Ok (State [existing_a] 0 0 0 0).
Proof.
  apply (merge_of_nothing [JNull; JStr "a"; JObj [("id", JNum 0)]] [existing_a]).
  - repeat constructor.
  - repeat constructor; discriminate.
Defined.

(** X19: the merge returns a result, for every list of candidates,
    whenever no production is [null] and the themes of every production,
    if it has truthy ones, are an array. *)
Theorem merge_returns cs ps :
  Forall (λ p, p ≠ JNull ∧ is_array (kept_themes p) = true) ps →
  ∃ st, merge cs ps = Ok st.
Proof. intros Hps. by apply merge_total. Qed.

Lemma merge_returns_witness :
  ∃ st, merge [candidate_a; candidate_b] [existing_a; bare_a] = Ok st.
Proof.
  apply (merge_returns [candidate_a; candidate_b] [existing_a; bare_a]).
  repeat constructor; discriminate.
Defined.

(** X20: a production stays as it is, at its position, unless its
    position is the last one that holds the [id] of some candidate: a
    production whose [id] no candidate has is untouched, and so is a
    production whose [id] occurs again further down. *)
Theorem unmatched_productions_stay cs ps st i e :
  merge cs ps = Ok st → ps !! i = Some e →
  (∀ c k, c ∈ cs → candidate_key c = Some k → last_index k ps 0 ≠ Some i) →
  productions st !! i = Some e.
Proof.
  intros (idx & Hidx & Hrun)%merge_inv Hi.
  apply (forEach_ind idx (λ processed st,
    (∀ c k, c ∈ processed → candidate_key c = Some k → last_index k ps 0 ≠ Some i) →
    productions st !! i = Some e) cs (State ps 0 0 0 0) st); [| |exact Hrun].
  - done.
  - intros processed c st0 st1 IH Hstep Hnone.
    assert (productions st0 !! i = Some e) as Hi0.
    { apply IH. intros c' k Hc'. apply Hnone, elem_of_app. by left. }
    destruct (candidate_id c) as [id|] eqn:Hid.
    2:{ rewrite (processCandidate_skip idx st0 c Hid) in Hstep.
        by injection Hstep as <-. }
    destruct (Map_get idx (Some id)) as [j|] eqn:Hget.
    2:{ rewrite (processCandidate_create idx st0 c id Hid Hget) in Hstep.
        injection Hstep as <-. simpl. by apply lookup_app_l_Some. }
    destruct (processCandidate_match_inv _ _ _ _ _ _ Hid Hget Hstep)
      as (existing & themes_equal & _ & _ & _ & _ & ->).
    cbv zeta. simpl. destruct (hasChanges existing _); [|done].
    destruct (decide (j = i)) as [->|Hne]; [|by rewrite list_lookup_insert_ne].
    destruct (matches_last_index ps idx c i Hidx) as (k & Hk & Hlast);
      [by exists id|].
    destruct (Hnone c k); [|done..]. apply elem_of_app. right. apply list_elem_of_here.
Qed.

Lemma unmatched_productions_stay_witness :
  productions (State [existing_a; merged_a] 0 1 1 1) !! 0 = Some existing_a.
Proof.
  apply (unmatched_productions_stay [candidate_a] [existing_a; existing_a]
           (State [existing_a; merged_a] 0 1 1 1) 0 existing_a).
  - vm_compute. reflexivity.
  - reflexivity.
  - intros c k ->%list_elem_of_singleton [= <-]. vm_compute. discriminate.
Defined.

(** X21: when the productions have pairwise distinct ids and the
    candidates do not repeat an id among themselves, the records of the
    output have pairwise distinct ids. *)
Theorem distinct_candidates_keep_ids_distinct cs ps st :
  merge cs ps = Ok st →
  NoDup (omap record_key ps) → NoDup (omap candidate_key cs) →
  NoDup (omap record_key (productions st)).
Proof. intros Hmerge Hps Hcs. by eapply merge_keeps_ids_unique. Qed.

Lemma distinct_candidates_keep_ids_distinct_witness :
  NoDup (omap record_key (productions (State [merged_a; candidate_b] 1 1 1 1))).
Proof.
  apply (distinct_candidates_keep_ids_distinct [candidate_a; candidate_b]
           [existing_a] (State [merged_a; candidate_b] 1 1 1 1)).
  - vm_compute. reflexivity.
  - refine (bool_decide_unpack _ _). vm_compute. exact I.
  - refine (bool_decide_unpack _ _). vm_compute. exact I.
Defined.

End LoopProperties.

(** ** Further properties: a run *)

Section RunProperties.
Context `{Host}.
Import RunFacts CompareFacts.

(** X22: all that a run does before the report (it parses the limit,
    reads and checks the two files and merges; lines 54-130) prints
    nothing and writes nothing, whether it throws or not.  A run that
    throws there has left console and files as they were; what it throws
    is the rejection of the limit, what reading one of the two files threw,
    a syntax error of the parser, one of the two complaints about a value
    that is not an array, or a [TypeError] of the merge; and the script
    then prints the error and exits with code 1.  Otherwise the run goes
    on to the report with what it prepared. *)
Theorem failed_run_changes_nothing argv w :
  let args := (parseArgs argv).1 in
  let dryRun := bool_decide ("dry-run" ∈ (parseArgs argv).2) in
  (prepare args w).2 = w
  ∧ match (prepare args w).1 with
    | Err e =>
        run_error args w e
        ∧ main argv w = (Err e, w)
        ∧ run_main argv w = (1%Z, World (files w) (console w ++ [ErrorMessage e]))
    | Ok (limit, candidates, limitedCandidates, st) =>
        main argv w
        = report_and_write dryRun (output_path args) limit (length candidates)
            limitedCandidates st w
    end.
Proof.
  unfold run_main, main. destruct (parseArgs argv) as [args flags]. simpl.
  unfold prepare, main_body, run_error, candidates_path, output_path.
  unfold io_bind, lift, readJson, io_bind, readFile, throw, io_ret.
  destruct (parseLimit (args !! "limit")) as [limit|e0] eqn:Hlimit.
  2:{ simpl. split_and!; try done. left. unfold parseLimit in Hlimit.
      destruct (args !! "limit") as [value|]; [|done]. exists value. split; [done|].
      destruct (parseInt value) as [n|]; [destruct (n <=? 0)%Z|]; congruence. }
  destruct (files w !! path_resolve (get_or args "candidates" _)) as [raw|];
    [|simpl; tauto].
  destruct (JSON_parse raw) as [candidates|]; [|simpl; tauto].
  destruct (files w !! path_resolve (get_or args "output" _)) as [raw'|];
    [|simpl; tauto].
  destruct (JSON_parse raw') as [productions|]; [|simpl; tauto].
  destruct candidates as [| | | |cs|]; try (simpl; tauto);
    destruct productions as [| | | |ps|]; try (simpl; tauto).
  destruct (merge _ ps) as [st|e1] eqn:Hmerge; simpl; [done|].
  apply merge_error in Hmerge as ->. tauto.
Qed.

(** X23: a run that returns has parsed the limit, read an array from each
    file and merged the limited candidates; it has printed the report of
    that merge, with the dry-run notice after it on a dry run; and it has
    left every file as it was, except that, unless it is a dry run, it has
    written the output file, whose text is the serialised merge when the
    numbers of the merged productions are safe integers. *)
Theorem successful_run_writes_the_merge argv w w' :
  main argv w = (Ok (), w') →
  let args := (parseArgs argv).1 in
  let dryRun := bool_decide ("dry-run" ∈ (parseArgs argv).2) in
  ∃ limit cs ps st,
    parseLimit (args !! "limit") = Ok limit
    ∧ read_array w (candidates_path args) = Some cs
    ∧ read_array w (output_path args) = Some ps
    ∧ merge (limitCandidates limit cs) ps = Ok st
    ∧ console w'
      = console w ++ report_lines limit (length cs) (limitCandidates limit cs) st
          ++ (if dryRun then [DryRunEnabled] else [])
    ∧ (dryRun = true → files w' = files w)
    ∧ (∀ filePath, filePath ≠ output_path args →
                   files w' !! filePath = files w !! filePath)
    ∧ (dryRun = false → is_Some (files w' !! output_path args))
    ∧ (dryRun = false → safe_numbers (JArr (productions st)) = true →
       files w' !! output_path args = Some (written_text st)).
Proof.
  unfold main. destruct (parseArgs argv) as [args flags]. simpl. intros Hmain.
  destruct (parseLimit (args !! "limit")) as [limit|e] eqn:Hlimit.
  2:{ destruct (main_body_aborts args w) as [e' He']; [left; eauto|].
      rewrite He' in Hmain. done. }
  destruct (read_array w (candidates_path args)) as [cs|] eqn:Hcs.
  2:{ destruct (main_body_aborts args w) as [e' He']; [right; by left|].
      rewrite He' in Hmain. done. }
  destruct (read_array w (output_path args)) as [ps|] eqn:Hps.
  2:{ destruct (main_body_aborts args w) as [e' He']; [right; by right|].
      rewrite He' in Hmain. done. }
  rewrite (main_body_arrays args flags w limit cs ps) in Hmain by done.
  unfold io_bind, lift in Hmain.
  destruct (merge (limitCandidates limit cs) ps) as [st|e] eqn:Hmerge; [|done].
  rewrite report_and_write_spec in Hmain. injection Hmain as <-.
  exists limit, cs, ps, st. cbn [files console]. split_and!; try done.
  - by intros ->.
  - intros filePath Hne. destruct (bool_decide _); [done|].
    by rewrite lookup_insert_ne.
  - intros ->. by rewrite lookup_insert_eq.
  - intros -> _. by rewrite lookup_insert_eq.
Qed.

(** X24: a missing file is reported by its resolved path, and the
    candidates file first: when the limit is accepted and the candidates
    file is missing the run throws on it, whatever the output file is; when
    the candidates file parses, to whatever value, and the output file is
    missing, the run throws on the output file. *)
Theorem missing_file_is_named argv w limit :
  parseLimit ((parseArgs argv).1 !! "limit") = Ok limit →
  (files w !! candidates_path (parseArgs argv).1 = None →
   main argv w = (Err (ENOENT (candidates_path (parseArgs argv).1)), w))
  ∧ (∀ raw v,
       files w !! candidates_path (parseArgs argv).1 = Some raw →
       JSON_parse raw = Some v →
       files w !! output_path (parseArgs argv).1 = None →
       main argv w = (Err (ENOENT (output_path (parseArgs argv).1)), w)).
Proof.
  unfold main. destruct (parseArgs argv) as [args flags]. simpl. intros Hlimit.
  unfold main_body, candidates_path, output_path.
  unfold io_bind, lift, readJson, io_bind, readFile, throw, io_ret.
  rewrite Hlimit. split.
  - intros Hnone. by rewrite Hnone.
  - intros raw v Hraw Hv Hnone. by rewrite Hraw, Hv, Hnone.
Qed.

(** X25: a limit that is not smaller than the number of candidates
    changes the report only: the run ends as the run without [--limit]
    does and leaves the same files. *)
Theorem large_limit_changes_only_report args flags w n cs ps :
  parseLimit (args !! "limit") = Ok (Some n) →
  read_array w (candidates_path args) = Some cs →
  read_array w (output_path args) = Some ps →
  (Z.of_nat (length cs) ≤ n)%Z →
  let other := main_body (delete "limit" args) flags w in
  (main_body args flags w).1 = other.1
  ∧ files (main_body args flags w).2 = files other.2.
Proof.
  intros Hlimit Hcs Hps Hlen.
  assert (candidates_path (delete "limit" args) = candidates_path args) as Hcp.
  { unfold candidates_path, get_or. by rewrite lookup_delete_ne. }
  assert (output_path (delete "limit" args) = output_path args) as Hop.
  { unfold output_path, get_or. by rewrite lookup_delete_ne. }
  simpl.
  rewrite (main_body_arrays args flags w (Some n) cs ps) by done.
  rewrite (main_body_arrays (delete "limit" args) flags w None cs ps);
    [|by rewrite lookup_delete_eq|by rewrite Hcp|by rewrite Hop].
  rewrite Hop.
  assert (limitCandidates (Some n) cs = cs) as ->.
  { unfold limitCandidates, slice_to. destruct (n =? 0)%Z; [done|].
    destruct (n <? 0)%Z eqn:Hneg; [lia|]. apply take_ge. lia. }
  simpl. unfold io_bind, lift. destruct (merge cs ps) as [st|e]; [|done].
  by rewrite !report_and_write_spec.
Qed.

End RunProperties.

Lemma successful_run_writes_the_merge_witness :
  let w' := (@main example_host [] example_world).2 in
  let args := (parseArgs []).1 in
  let dryRun := bool_decide ("dry-run" ∈ (parseArgs []).2) in
  ∃ limit cs ps st,
    parseLimit (args !! "limit") = Ok limit
    ∧ @read_array example_host example_world (@candidates_path example_host args)
      = Some cs
    ∧ @read_array example_host example_world (@output_path example_host args)
      = Some ps
    ∧ merge (limitCandidates limit cs) ps = Ok st
    ∧ console w'
      = console example_world
          ++ report_lines limit (length cs) (limitCandidates limit cs) st
          ++ (if dryRun then [DryRunEnabled] else [])
    ∧ (dryRun = true → files w' = files example_world)
    ∧ (∀ filePath, filePath ≠ @output_path example_host args →
                   files w' !! filePath = files example_world !! filePath)
    ∧ (dryRun = false → is_Some (files w' !! @output_path example_host args))
    ∧ (dryRun = false → safe_numbers (JArr (productions st)) = true →
       files w' !! @output_path example_host args = Some (written_text st)).
Proof.
  apply (@successful_run_writes_the_merge example_host [] example_world
           (@main example_host [] example_world).2).
  vm_compute. reflexivity.
Defined.

Lemma missing_file_is_named_witness :
  (files (World ∅ []) !! @candidates_path example_host (parseArgs []).1 = None →
   @main example_host [] (World ∅ [])
   = (Err (ENOENT (@candidates_path example_host (parseArgs []).1)), World ∅ []))
  ∧ (∀ raw v,
       files (World ∅ []) !! @candidates_path example_host (parseArgs []).1
       = Some raw →
       @JSON_parse example_host raw = Some v →
       files (World ∅ []) !! @output_path example_host (parseArgs []).1 = None →
       @main example_host [] (World ∅ [])
       = (Err (ENOENT (@output_path example_host (parseArgs []).1)), World ∅ [])).
Proof.
  apply (@missing_file_is_named example_host [] (World ∅ []) None).
  reflexivity.
Defined.

Lemma large_limit_changes_only_report_witness :
  let other :=
    @main_body example_host (delete "limit" {[ "limit" := "5" ]}) ∅ example_world in
  (@main_body example_host {[ "limit" := "5" ]} ∅ example_world).1 = other.1
  ∧ files (@main_body example_host {[ "limit" := "5" ]} ∅ example_world).2
    = files other.2.
Proof.
  apply (@large_limit_changes_only_report example_host {[ "limit" := "5" ]} ∅
           example_world 5%Z [JObj [("id", JNum 1)]] []).
  - vm_compute. reflexivity.
  - vm_compute. reflexivity.
  - vm_compute. reflexivity.
  - simpl. lia.
Defined.

(** ** Further properties: one candidate *)

Section StepProperties.
Import ObjectFacts StepFacts CompareFacts.

#[local] Arguments Map_get : simpl never.
#[local] Arguments areArraysEqual : simpl never.
#[local] Arguments mergeRecord : simpl never.
#[local] Arguments hasChanges : simpl never.

(** X26: a candidate whose [id] is an array or an object is appended as a
    new production, whatever the productions are: such an [id] is never
    found in the index. *)
Theorem composite_id_is_always_new idx st c id :
  candidate_id c = Some id → primitive id = false →
  processCandidate idx st c
  = Ok (State (productions st ++ [c]) (createdCount st + 1) (updatedCount st)
          (themesUnchangedCount st) (themeMismatchCount st)).
Proof.
  intros Hid Hcomp. apply (processCandidate_create idx st c id Hid).
  unfold Map_get. by destruct id.
Qed.

Lemma composite_id_is_always_new_witness :
  processCandidate {[ KStr "a" := 0 ]} (State [existing_a] 0 0 0 0)
    (JObj [("id", JArr [JStr "a"])])
  = Ok (State ([existing_a] ++ [JObj [("id", JArr [JStr "a"])]]) (0 + 1) 0 0 0).
Proof.
  apply (composite_id_is_always_new {[ KStr "a" := 0 ]} (State [existing_a] 0 0 0 0)
           (JObj [("id", JArr [JStr "a"])]) (JArr [JStr "a"])).
  - reflexivity.
  - reflexivity.
Defined.

(** X27: for a candidate merged into a production whose themes are an
    array of primitives, a theme mismatch is counted exactly when the
    candidate's themes ([candidate.themes || []], an array) differ from
    the production's. *)
Theorem mismatch_counted_when_themes_differ idx st c i existing l r st' :
  matches idx c i → productions st !! i = Some existing →
  kept_themes existing = JArr l → kept_themes c = JArr r →
  Forall (λ v, primitive v = true) l →
  processCandidate idx st c = Ok st' →
  (l = r → themeMismatchCount st' = themeMismatchCount st)
  ∧ (l ≠ r → themeMismatchCount st' = themeMismatchCount st + 1).
Proof.
  intros (id & Hid & Hget) Hex Hl Hr Hprim Hstep.
  destruct (processCandidate_match_inv _ _ _ _ _ _ Hid Hget Hstep)
    as (existing' & themes_equal & Hex' & _ & _ & Heq & ->).
  assert (existing' = existing) as -> by congruence.
  rewrite Hl, Hr in Heq. cbv zeta. simpl.
  assert (themes_equal = true ↔ l = r) as Hiff.
  { unfold areArraysEqual in Heq. simpl in Heq.
    destruct (Z.of_nat (length l) =? Z.of_nat (length r))%Z eqn:Hlen;
      simpl in Heq; injection Heq as <-.
    - apply Z.eqb_eq in Hlen. apply every_primitive; [done|lia].
    - apply Z.eqb_neq in Hlen. split; [done|]. intros ->. lia. }
  split.
  - intros Hsame%Hiff. by rewrite Hsame.
  - intros Hdiff. destruct themes_equal; [|done]. by destruct Hdiff, Hiff as [-> _].
Qed.

Lemma mismatch_counted_when_themes_differ_witness :
  ([JStr "x"] = [JStr "y"] →
   themeMismatchCount (State [merged_a] 0 1 1 1)
   = themeMismatchCount (State [existing_a] 0 0 0 0))
  ∧ ([JStr "x"] ≠ [JStr "y"] →
     themeMismatchCount (State [merged_a] 0 1 1 1)
     = themeMismatchCount (State [existing_a] 0 0 0 0) + 1).
Proof.
  apply (mismatch_counted_when_themes_differ {[ KStr "a" := 0 ]}
           (State [existing_a] 0 0 0 0) candidate_a 0 existing_a
           [JStr "x"] [JStr "y"] (State [merged_a] 0 1 1 1)).
  - exists (JStr "a"). split; reflexivity.
  - reflexivity.
  - reflexivity.
  - reflexivity.
  - repeat constructor.
  - vm_compute. reflexivity.
Defined.

End StepProperties.
